(** * Verification of the Flow component-graph runtime

    A shallow embedding of [pkg/flow/flow.go], [pkg/flow/node.go] and of the
    [convert] sub-command, together with the properties of the runtime that
    are stated in its specification.

    Conventions.
    - Go pointers to [componentNode] are indices into a store of nodes.
    - A Go [error] is [option error]: [None] is the [nil] error.
    - A run-time panic of Go (index out of range, nil dereference) is an
      explicit outcome of the functions that can raise one, and so is the
      end of the process by [os.Exit].
    - Packages of the repository that the sources import but that are not
      part of the verified files ([dag], the nametable, the converter
      diagnostics) are modelled from the specification; every such
      definition says so. *)

From Stdlib Require Import String Ascii.
From stdpp Require Import base list strings.

Set Default Proof Using "Type".

(* ===================================================================== *)
(** * Part I: definitions                                                 *)
(* ===================================================================== *)

(** ** Go strings *)

Module gostrings.

(** Go strings are byte sequences; [s[i]] panics when [i] is out of range. *)
Definition index (s : string) (i : nat) : option ascii := String.get i s.

(** [s[n:]]: panics ([None]) when [n] exceeds the length. *)
Definition slice_from (s : string) (n : nat) : option string :=
  if decide (n ≤ String.length s)%nat
  then Some (String.substring n (String.length s - n) s)
  else None.

(** [strings.Join]. *)
Fixpoint Join (elems : list string) (sep : string) : string :=
  match elems with
  | [] => ""%string
  | [x] => x
  | x :: rest => (x ++ sep ++ Join rest sep)%string
  end.

(** ASCII white space as [unicode.IsSpace] sees it on single bytes. *)
Definition isSpace (c : ascii) : bool :=
  let n := nat_of_ascii c in
  (Nat.eqb n 9 || Nat.eqb n 10 || Nat.eqb n 11 || Nat.eqb n 12
   || Nat.eqb n 13 || Nat.eqb n 32)%bool.

(** The width in bytes of the white-space rune that [s] begins with, and 0
    when it begins with none.  Beyond the six ASCII bytes, [unicode.IsSpace]
    holds of U+0085 and U+00A0 (C2 85, C2 A0), U+1680 (E1 9A 80), U+2000 to
    U+200A, U+2028, U+2029 and U+202F (E2 80 80..8A, A8, A9, AF), U+205F
    (E2 81 9F) and U+3000 (E3 80 80).  A lead byte is never a continuation
    byte, so a match on these bytes is a match on the decoded rune; bytes
    that do not decode are no white space. *)
Definition space_width (s : string) : nat :=
  match s with
  | EmptyString => 0
  | String a rest =>
      if isSpace a then 1
      else
        let x := nat_of_ascii a in
        match rest with
        | EmptyString => 0
        | String b rest' =>
            let y := nat_of_ascii b in
            if (Nat.eqb x 194 && (Nat.eqb y 133 || Nat.eqb y 160))%bool then 2
            else
              match rest' with
              | EmptyString => 0
              | String c _ =>
                  let z := nat_of_ascii c in
                  if (Nat.eqb x 225 && Nat.eqb y 154 && Nat.eqb z 128)%bool
                  then 3
                  else if (Nat.eqb x 226 && Nat.eqb y 128 &&
                           ((Nat.leb 128 z && Nat.leb z 138) || Nat.eqb z 168
                            || Nat.eqb z 169 || Nat.eqb z 175))%bool
                  then 3
                  else if (Nat.eqb x 226 && Nat.eqb y 129 && Nat.eqb z 159)%bool
                  then 3
                  else if (Nat.eqb x 227 && Nat.eqb y 128 && Nat.eqb z 128)%bool
                  then 3
                  else 0
              end
        end
  end.

(** [strings.Fields]: the maximal runs of bytes between white-space runes,
    in order.  [skip] counts the bytes still to pass of the white-space
    rune being read; [cur] is the run being read, reversed. *)
Fixpoint fields_go (s : string) (skip : nat) (cur : list ascii)
  : list string :=
  let flush (k : list string) :=
    match cur with
    | [] => k
    | _ => string_of_list_ascii (rev cur) :: k
    end in
  match s with
  | EmptyString => flush []
  | String c s' =>
      match skip with
      | S k => fields_go s' k cur
      | O =>
          match space_width s with
          | O => fields_go s' 0 (c :: cur)
          | S k => flush (fields_go s' k [])
          end
      end
  end.

Definition Fields (s : string) : list string := fields_go s 0 [].

(** The text before and after the first occurrence of the byte [sep]. *)
Fixpoint cut (sep : ascii) (s : string) : option (string * string) :=
  match s with
  | EmptyString => None
  | String c s' =>
      if Ascii.eqb c sep then Some (EmptyString, s')
      else match cut sep s' with
           | Some (a, b) => Some (String c a, b)
           | None => None
           end
  end.

(** [strings.SplitN(s, sep, 2)] for a one-byte separator. *)
Definition SplitN2 (s : string) (sep : ascii) : list string :=
  match cut sep s with
  | Some (a, b) => [a; b]
  | None => [s]
  end.

End gostrings.

(** ** The HCL data the runtime consumes *)

Module hcl.

(** [hcl.DiagnosticSeverity]: the zero value is invalid. *)
Inductive DiagnosticSeverity := DiagInvalid | DiagError | DiagWarning.

#[global] Instance DiagnosticSeverity_eq_dec : EqDecision DiagnosticSeverity.
Proof. solve_decision. Defined.

Record Diagnostic := mkDiagnostic {
  Severity : DiagnosticSeverity;
  Summary : string
}.

Definition Diagnostics := list Diagnostic.

(** [Diagnostics.HasErrors]: some diagnostic has severity [DiagError]. *)
Definition HasErrors (diags : Diagnostics) : bool :=
  existsb (λ d, bool_decide (Severity d = DiagError)) diags.

(** [Diagnostics.Extend]. *)
Definition Extend (diags more : Diagnostics) : Diagnostics := diags ++ more.

(** A traversal is the ordered list of its name segments. *)
Definition Traversal := list string.

(** An attribute with the variables its expression reads
    ([attrib.Expr.Variables()]). *)
Record Attribute := mkAttribute {
  AttrName : string;
  ExprVariables : list Traversal
}.

(** [hclsyntax.Body] and the blocks nested in it.  The top-level [hcl.Block]
    values that [Load] receives carry a syntax body, so one type serves for
    both. *)
Inductive Body := mkBody {
  Attributes : list Attribute;
  Blocks : list Block
}
with Block := mkBlock {
  Type_ : string;
  Labels : list string;
  BlockBody : Body
}.

(** A traversal occurs in a body when it is a variable of one of its
    attributes or occurs in the body of one of its blocks. *)
Inductive occurs (t : Traversal) : Body → Prop :=
| occurs_attribute attrs blocks a :
    a ∈ attrs → t ∈ ExprVariables a → occurs t (mkBody attrs blocks)
| occurs_nested attrs blocks b :
    b ∈ blocks → occurs t (BlockBody b) → occurs t (mkBody attrs blocks).

End hcl.

(** ** The graph engine *)

Module dag.

(** Modelled from the spec: package [dag] is imported by [flow.go] but is not
    among the verified files.  Section 4.1 of the specification gives its
    contract; nodes are held by identity, here the index of the node in the
    store. *)
Definition Node := nat.

Record Edge := mkEdge { From : Node; To : Node }.

#[global] Instance Edge_eq_dec : EqDecision Edge.
Proof. solve_decision. Defined.

Record Graph := mkGraph {
  nodes : list Node;   (* in insertion order *)
  edges : list Edge    (* [From] depends on [To] *)
}.

Inductive Error := ErrCycle | ErrDuplicate | ErrUnknownNode.

Definition empty : Graph := mkGraph [] [].

(** Modelled from the spec: [Nodes()]. *)
Definition Nodes (g : Graph) : list Node := nodes g.

(** Modelled from the spec: [Dependencies(n)], the direct neighbours along
    outgoing edges. *)
Definition Dependencies (g : Graph) (n : Node) : list Node :=
  To <$> filter (λ e, From e = n) (edges g).

(** Modelled from the spec: [Dependants(n)], the direct neighbours along
    incoming edges. *)
Definition Dependants (g : Graph) (n : Node) : list Node :=
  From <$> filter (λ e, To e = n) (edges g).

(** Modelled from the spec: [Leaves()], the nodes with no outgoing edge. *)
Definition Leaves (g : Graph) : list Node :=
  filter (λ n, Dependencies g n = []) (nodes g).

(** Modelled from the spec: [Roots()], the nodes with no incoming edge. *)
Definition Roots (g : Graph) : list Node :=
  filter (λ n, Dependants g n = []) (nodes g).

(** Depth-first search for [b] from [a] along dependency edges, to depth
    [fuel]. *)
Fixpoint reach_fuel (fuel : nat) (g : Graph) (a b : Node) : bool :=
  match fuel with
  | O => bool_decide (a = b)
  | S k =>
      bool_decide (a = b) || existsb (λ c, reach_fuel k g c b) (Dependencies g a)
  end.

Definition reachb (g : Graph) (a b : Node) : bool :=
  reach_fuel (length (nodes g)) g a b.

(** Modelled from the spec: [Add(n)] inserts a node and fails if a node with
    equal identity exists. *)
Definition Add (g : Graph) (n : Node) : Graph * option Error :=
  if decide (n ∈ nodes g) then (g, Some ErrDuplicate)
  else (mkGraph (nodes g ++ [n]) (edges g), None).

(** Modelled from the spec: [AddEdge] fails on a self-edge, on a missing
    endpoint, on a duplicate, and when the edge would close a cycle (a search
    from [To] that finds [From]). *)
Definition AddEdge (g : Graph) (e : Edge) : Graph * option Error :=
  if decide (From e = To e) then (g, Some ErrCycle)
  else if decide (From e ∈ nodes g ∧ To e ∈ nodes g) then
    if decide (e ∈ edges g) then (g, Some ErrDuplicate)
    else if reachb g (To e) (From e) then (g, Some ErrCycle)
    else (mkGraph (nodes g) (edges g ++ [e]), None)
  else (g, Some ErrUnknownNode).

(** An edge [A -> C] is redundant when some [A -> B] with [B <> C] reaches
    [C]: a path of length at least two. *)
Definition redundant (g : Graph) (e : Edge) : bool :=
  existsb (λ b, bool_decide (b ≠ To e) && reachb g b (To e))
          (Dependencies g (From e)).

(** Modelled from the spec: [Reduce()], the transitive reduction. *)
Definition Reduce (g : Graph) : Graph :=
  mkGraph (nodes g) (filter (λ e, redundant g e = false) (edges g)).

(** A node may be visited once all the nodes it depends on have been. *)
Definition ready (g : Graph) (visited : list Node) (n : Node) : Prop :=
  (n ∉ visited) ∧ Forall (λ d, d ∈ visited) (Dependencies g n).

#[global] Instance ready_dec g visited n : Decision (ready g visited n).
Proof. unfold ready. apply _. Defined.

(** The visiting order: repeatedly the first candidate, in insertion order,
    that is ready. *)
Fixpoint walk_from (fuel : nat) (g : Graph) (cands visited : list Node)
  : list Node :=
  match fuel with
  | O => visited
  | S k =>
      match list_find (ready g visited) cands with
      | Some (_, n) => walk_from k g cands (visited ++ [n])
      | None => visited
      end
  end.

(** The candidates are the nodes from which a start node is reachable along
    dependency edges, i.e. the nodes reachable from [start] upwards. *)
Definition walk_order (g : Graph) (start : list Node) : list Node :=
  let cands := filter (λ n, Exists (λ s, reachb g n s = true) start) (nodes g) in
  walk_from (length cands) g cands [].

(** Apply the visitor along an order, stopping at its first error. *)
Fixpoint walk_visit {St Err : Type} (fn : Node → St → St * option Err)
    (order : list Node) (st : St) : St * option Err :=
  match order with
  | [] => (st, None)
  | n :: rest =>
      match fn n st with
      | (st', Some e) => (st', Some e)
      | (st', None) => walk_visit fn rest st'
      end
  end.

(** Modelled from the spec: [WalkTopological(start, fn)] visits every node
    reachable from [start], each only after the nodes it depends on, ties
    broken by insertion order; an error of [fn] ends the walk. *)
Definition WalkTopological {St Err : Type} (g : Graph) (start : list Node)
    (fn : Node → St → St * option Err) (st : St) : St * option Err :=
  walk_visit fn (walk_order g start) st.

(** [a] has an edge to [b]: [a] depends directly on [b]. *)
Definition has_edge (g : Graph) (a b : Node) : Prop := mkEdge a b ∈ edges g.

(** [walk g a l b]: following dependency edges from [a] one passes through
    the nodes of [l], in order, and ends in [b] (the last node of [l], or
    [a] itself when [l] is empty). *)
Fixpoint walk (g : Graph) (a : Node) (l : list Node) (b : Node) : Prop :=
  match l with
  | [] => a = b
  | x :: l' => has_edge g a x ∧ walk g x l' b
  end.

Definition reaches (g : Graph) (a b : Node) : Prop := ∃ l, walk g a l b.

Definition acyclic (g : Graph) : Prop :=
  ∀ a l, l ≠ [] → ¬ walk g a l a.

(** A list is in dependency order when every node comes after the nodes it
    depends on. *)
Definition topological (g : Graph) (l : list Node) : Prop :=
  ∀ i n, l !! i = Some n → ∀ d, d ∈ Dependencies g n → d ∈ take i l.

(** The invariant of the graph engine: every node once, every edge between
    nodes of the graph, no cycle. *)
Record wf (g : Graph) : Prop := mkWf {
  wf_nodup : NoDup (nodes g);
  wf_edges : ∀ e, e ∈ edges g → From e ∈ nodes g ∧ To e ∈ nodes g;
  wf_acyclic : acyclic g
}.

End dag.

(** ** The runtime: references, nodes, nametable *)

Module flow.

(** [type reference []string]. *)
Definition reference := list string.

(** [reference.String]. *)
Definition reference_String (r : reference) : string := gostrings.Join r ".".

(** The errors the runtime creates or passes on. *)
Inductive error :=
| ErrReadingConfig (cause : string)     (* "reading config file: %w" *)
| ErrNotInitialized (name : string)     (* "componentNode %q not initialized" *)
| ErrDiagnostics (diags : hcl.Diagnostics)
| ErrExternal (msg : string).           (* raised by a collaborator *)

(** What a Go function with result type [error] does: return [nil], return
    an error, or panic. *)
Inductive ret := RetNil | RetErr (e : error) | RetPanic.

(** How a visitor of the topological walk fails: with an error, or by a
    panic. *)
Inductive failure := Failed (e : error) | Panicked.

Definition ret_of (o : option failure) : ret :=
  match o with
  | None => RetNil
  | Some (Failed e) => RetErr e
  | Some Panicked => RetPanic
  end.

(** The built-in functions: [stdlib.ConcatFunc] under the name "concat". *)
Inductive Function := ConcatFunc.

Definition funcMap : list (string * Function) := [("concat"%string, ConcatFunc)].

(** [hcl.EvalContext]: the value bound to each dependency and the function
    table. *)
Record EvalContext (Value : Type) := mkEvalContext {
  Variables : list (reference * Value);
  Functions : list (string * Function)
}.
Arguments mkEvalContext {Value} _ _.
Arguments Variables {Value} _.
Arguments Functions {Value} _.

(** [ectx.Functions = funcMap], done only when [ectx] is not [nil]. *)
Definition with_functions {Value} (ectx : option (EvalContext Value))
  : option (EvalContext Value) :=
  match ectx with
  | Some e => Some (mkEvalContext (Variables e) funcMap)
  | None => None
  end.

(** The interface [rawcomponent.Component], as far as the runtime calls it
    synchronously.  [Run] is long-lived and appears through the labels of
    the transition system below. *)
Class Component (Value Comp : Type) := {
  CurrentState : Comp → Value;
  Update : Comp → option (EvalContext Value) → hcl.Block → Comp * option error
}.

(** A go-kit logger is represented by its key/value context. *)
Definition Logger := list (string * string).

Definition log_With (l : Logger) (k v : string) : Logger := l ++ [(k, v)].

(** [component.BuildContext]. *)
Record BuildContext (Value : Type) := mkBuildContext {
  Log : Logger;
  BuildEvalCtx : option (EvalContext Value)
}.
Arguments mkBuildContext {Value} _ _.
Arguments Log {Value} _.
Arguments BuildEvalCtx {Value} _.

(** [rootBlock]. *)
Record rootBlock (HBody : Type) := mkRootBlock {
  LogLevel : string;
  LogFormat : string;
  RootBody : HBody;
  Remain : HBody
}.
Arguments mkRootBlock {HBody} _ _ _ _.
Arguments Remain {HBody} _.

(** The collaborators outside the runtime: the file system, the HCL parser
    and decoder, and the component registry.  [HBody] is the parser's
    [hcl.Body]; [body_Content] is [Body.Content] with the block schema of
    the registry; [exports_has] tells whether the exported state of the
    component declared by a block has a field path. *)
Class Externals (Value Comp HBody : Type) := {
  os_ReadFile : string → string + string;
  hclsyntax_ParseConfig : string → string → HBody * hcl.Diagnostics;
  gohcl_DecodeBody : HBody → rootBlock HBody * hcl.Diagnostics;
  body_Content : HBody → list hcl.Block * hcl.Diagnostics;
  component_BuildHCL :
    string → BuildContext Value → hcl.Block → Comp + error;
  exports_has : hcl.Block → list string → bool
}.

Section Runtime.
Context {Value Comp HBody : Type}.
Context `{!Component Value Comp} `{!Externals Value Comp HBody}.

(** [componentNode]; [raw] is [nil] until the node is built. *)
Record componentNode := mkComponentNode {
  ref : reference;
  block : hcl.Block;
  raw : option Comp
}.

(** [newComponentNode]. *)
Definition newComponentNode (blk : hcl.Block) : componentNode :=
  {| ref := [hcl.Type_ blk] ++ hcl.Labels blk; block := blk; raw := None |}.

Definition Reference (cn : componentNode) : reference := ref cn.

Definition Name (cn : componentNode) : string := reference_String (ref cn).

(** [componentNode.Set]. *)
Definition Set_ (cn : componentNode) (rc : Comp) : componentNode :=
  {| ref := ref cn; block := block cn; raw := Some rc |}.

(** The kind path handed to the builder: [cn.ref[:len(cn.ref)-1]]. *)
Definition componentID (cn : componentNode) : reference :=
  take (length (ref cn) - 1) (ref cn).

(** Modelled from the spec: the nametable ([nametable.go] is not among the
    verified files): a map from references to nodes, kept in registration
    order.  Its second, purely visual graph is left out. *)
Record nametable := mkNametable {
  entries : list (reference * dag.Node)
}.

(** Modelled from the spec: [nametable.Add] registers a node by its
    reference and fails on a duplicate. *)
Definition nametable_Add (nt : nametable) (store : list componentNode)
    (n : dag.Node) : nametable * option error :=
  match store !! n with
  | Some cn =>
      if decide (ref cn ∈ (fst <$> entries nt))
      then (nt, Some (ErrExternal "duplicate reference"))
      else (mkNametable (entries nt ++ [(ref cn, n)]), None)
  | None => (nt, Some (ErrExternal "unknown node"))
  end.

(** The longest of the candidates, the earliest on a tie. *)
Fixpoint longest (cands : list (reference * dag.Node))
  : option (reference * dag.Node) :=
  match cands with
  | [] => None
  | c :: rest =>
      match longest rest with
      | Some c' => if decide (length c'.1 ≤ length c.1) then Some c else Some c'
      | None => Some c
      end
  end.

(** Modelled from the spec: [LookupTraversal] matches the longest registered
    prefix of the traversal.  Without a match it returns [nil] and no
    diagnostic; with one, the remaining steps must name a field of the
    target's exported state, else an error diagnostic is returned. *)
Definition LookupTraversal (nt : nametable) (store : list componentNode)
    (t : hcl.Traversal) : option dag.Node * hcl.Diagnostics :=
  match longest (filter (λ e, e.1 `prefix_of` t) (entries nt)) with
  | None => (None, [])
  | Some (r, n) =>
      match store !! n with
      | Some cn =>
          if exports_has (block cn) (drop (length r) t) then (Some n, [])
          else (None, [hcl.mkDiagnostic hcl.DiagError "Invalid reference"])
      | None => (None, [])
      end
  end.

(** What [BuildEvalContext] does: return a context (or [nil]) and an error,
    or panic on the [nil] component of an uninitialized dependency. *)
Inductive ectx_result :=
| EctxRet (ectx : option (EvalContext Value)) (err : option error)
| EctxPanic.

(** The reference and the current exported state of a node. *)
Definition binding (store : list componentNode) (d : dag.Node)
  : option (reference * Value) :=
  cn ← store !! d; c ← raw cn; Some (ref cn, CurrentState c).

(** Modelled from the spec: [BuildEvalContext] binds every dependency to its
    exported value at call time; for no dependencies it returns the [nil]
    context. *)
Definition BuildEvalContext (store : list componentNode)
    (deps : list dag.Node) : ectx_result :=
  match deps with
  | [] => EctxRet None None
  | _ =>
      match mapM (binding store) deps with
      | Some vars => EctxRet (Some (mkEvalContext vars [])) None
      | None => EctxPanic
      end
  end.


(** A node is initialized when the store holds it with a component. *)
Definition initialized (st : list componentNode) (n : dag.Node) : Prop :=
  ∃ cn c, st !! n = Some cn ∧ raw cn = Some c.

(** ** [Flow] and [Load] *)

(** [Flow], with the store that its node pointers point into.  The mutex
    [graphMut] is part of the run state below: [Load] takes it on entry and
    releases it on every return. *)
Record Flow := mkFlow {
  log : Logger;
  configFile : string;
  store : list componentNode;
  graph : dag.Graph;
  nt : nametable
}.

(** [New]. *)
Definition New (l : Logger) (file : string) : Flow :=
  mkFlow l file [] dag.empty (mkNametable []).

(** [expressionsFromSyntaxBody]: the variables of the attributes, then those
    of the nested blocks, depth first. *)
Fixpoint expressionsFromSyntaxBody (body : hcl.Body) : list hcl.Traversal :=
  match body with
  | hcl.mkBody attrs blocks =>
      flat_map hcl.ExprVariables attrs ++
      flat_map (λ b, match b with
                     | hcl.mkBlock _ _ inner => expressionsFromSyntaxBody inner
                     end) blocks
  end.

(** First pass of [Load], one block: allocate the node, add it to the graph
    and to the nametable.  The results of both [Add]s are dropped, as in the
    source. *)
Definition add_component (f : Flow) (blk : hcl.Block) : Flow :=
  let component := length (store f) in
  let store' := store f ++ [newComponentNode blk] in
  let g := (dag.Add (graph f) component).1 in
  let nt' := (nametable_Add (nt f) store' component).1 in
  mkFlow (log f) (configFile f) store' g nt'.

(** Second pass, the traversals of one node: look each one up; on [nil]
    continue, otherwise add the edge (the result of [AddEdge] is dropped). *)
Fixpoint wire_traversals (ntab : nametable) (st : list componentNode)
    (component : dag.Node) (ts : list hcl.Traversal)
    (acc : dag.Graph * hcl.Diagnostics) : dag.Graph * hcl.Diagnostics :=
  match ts with
  | [] => acc
  | t :: rest =>
      let '(target, lookupDiags) := LookupTraversal ntab st t in
      let diags := hcl.Extend acc.2 lookupDiags in
      match target with
      | None => wire_traversals ntab st component rest (acc.1, diags)
      | Some tgt =>
          wire_traversals ntab st component rest
            ((dag.AddEdge acc.1 (dag.mkEdge component tgt)).1, diags)
      end
  end.

(** Second pass, all nodes of [f.graph.Nodes()]. *)
Fixpoint wire_nodes (ntab : nametable) (st : list componentNode)
    (ns : list dag.Node) (acc : dag.Graph * hcl.Diagnostics)
  : dag.Graph * hcl.Diagnostics :=
  match ns with
  | [] => acc
  | n :: rest =>
      let traversals :=
        match st !! n with
        | Some cn => expressionsFromSyntaxBody (hcl.BlockBody (block cn))
        | None => []
        end in
      wire_nodes ntab st rest (wire_traversals ntab st n traversals acc)
  end.

(** One invocation of the builder, as recorded by the model. *)
Record BuildCall := mkBuildCall {
  bc_node : dag.Node;
  bc_kind : string;
  bc_ctx : BuildContext Value;
  bc_block : hcl.Block
}.

(** The visitor handed to [WalkTopological]: build the evaluation context of
    the node from its direct dependencies, call the builder, store the
    result in the node.  The state is the store and the builder calls made
    so far. *)
Definition build_node (l : Logger) (g : dag.Graph) (n : dag.Node)
    (st : list componentNode * list BuildCall)
  : (list componentNode * list BuildCall) * option failure :=
  match st.1 !! n with
  | None => (st, Some Panicked)
  | Some cn =>
      let directDeps := dag.Dependencies g n in
      match BuildEvalContext st.1 directDeps with
      | EctxPanic => (st, Some Panicked)
      | EctxRet _ (Some err) => (st, Some (Failed err))
      | EctxRet ectx None =>
          let ectx := with_functions ectx in
          let bctx := mkBuildContext (log_With l "node" (Name cn)) ectx in
          let kind := reference_String (componentID cn) in
          let calls := st.2 ++ [mkBuildCall n kind bctx (block cn)] in
          match component_BuildHCL kind bctx (block cn) with
          | inr err => ((st.1, calls), Some (Failed err))
          | inl rc => ((<[n := Set_ cn rc]> st.1, calls), None)
          end
      end
  end.

(** The result of [Load]: what it returns, the runtime it leaves behind, and
    the builder calls it made. *)
Record LoadOutcome := mkLoadOutcome {
  load_ret : ret;
  load_flow : Flow;
  load_builds : list BuildCall
}.

(** [Flow.Load]. *)
Definition Load (f : Flow) : LoadOutcome :=
  match os_ReadFile (configFile f) with
  | inr err => mkLoadOutcome (RetErr (ErrReadingConfig err)) f []
  | inl bb =>
      let '(file, diags) := hclsyntax_ParseConfig bb (configFile f) in
      if hcl.HasErrors diags
      then mkLoadOutcome (RetErr (ErrDiagnostics diags)) f []
      else
        let '(root, decodeDiags) := gohcl_DecodeBody file in
        let diags := hcl.Extend diags decodeDiags in
        if hcl.HasErrors diags
        then mkLoadOutcome (RetErr (ErrDiagnostics diags)) f []
        else
          let '(content, remainDiags) := body_Content (Remain root) in
          let diags := hcl.Extend diags remainDiags in
          if hcl.HasErrors diags
          then mkLoadOutcome (RetErr (ErrDiagnostics diags)) f []
          else
            let f1 := foldl add_component f content in
            let '(g2, diags) :=
              wire_nodes (nt f1) (store f1) (dag.Nodes (graph f1))
                         (graph f1, diags) in
            let f2 := mkFlow (log f1) (configFile f1) (store f1) g2 (nt f1) in
            if hcl.HasErrors diags
            then mkLoadOutcome (RetErr (ErrDiagnostics diags)) f2 []
            else
              let g3 := dag.Reduce g2 in
              let '((store', calls), err) :=
                dag.WalkTopological g3 (dag.Leaves g3)
                  (build_node (log f1) g3) (store f1, []) in
              let f3 := mkFlow (log f1) (configFile f1) store' g3 (nt f1) in
              mkLoadOutcome (ret_of err) f3 calls
  end.


(** ** [Run] *)

Inductive LogEntry :=
| LogError (msg node : string) (err : error)
| LogDebug (msg node : string).

(** What [Run] and its workers do that can be observed.  An [EvUpdate]
    carries the store at the moment of the call. *)
Inductive event :=
| EvLock
| EvUnlock
| EvGo (n : dag.Node)
| EvLog (e : LogEntry)
| EvUpdate (n : dag.Node) (ectx : option (EvalContext Value))
           (at_store : list componentNode)
| EvStore (n : dag.Node)
| EvSend (sent : bool)
| EvDelete (n : dag.Node)
| EvReturn (r : ret).

(** Where the main goroutine of [Run] stands. *)
Inductive arbiter_pc :=
| AIdle                                        (* blocked in the [select] *)
| ARange (snapshot visited : list dag.Node)    (* inside [updated.Range] *)
| AHandled (key : dag.Node) (snapshot visited : list dag.Node)
                                               (* body done, [Delete] deferred *)
| AWaiting (r : ret)                           (* returning: deferred [wg.Wait] *)
| AReturned (r : ret)
| APanicked.

Record RunState := mkRunState {
  rs_flow : Flow;
  rs_locked : bool;                 (* [graphMut] *)
  rs_started : list dag.Node;       (* [wg.Add(1); go ...] *)
  rs_exited : list dag.Node;        (* [wg.Done()] *)
  rs_notifying : list dag.Node;     (* workers between [Store] and the send *)
  rs_updated : list dag.Node;       (* keys of the [sync.Map] *)
  rs_refreshCh : nat;               (* tokens buffered, capacity 1 *)
  rs_cancelled : bool;              (* [ctx.Done()] is closed *)
  rs_arbiter : arbiter_pc;
  rs_trace : list event
}.

Definition set_store (f : Flow) (st : list componentNode) : Flow :=
  mkFlow (log f) (configFile f) st (graph f) (nt f).

Definition set_flow (rs : RunState) (f : Flow) : RunState :=
  mkRunState f (rs_locked rs) (rs_started rs) (rs_exited rs)
    (rs_notifying rs) (rs_updated rs) (rs_refreshCh rs) (rs_cancelled rs)
    (rs_arbiter rs) (rs_trace rs).

Definition set_locked (rs : RunState) (b : bool) : RunState :=
  mkRunState (rs_flow rs) b (rs_started rs) (rs_exited rs)
    (rs_notifying rs) (rs_updated rs) (rs_refreshCh rs) (rs_cancelled rs)
    (rs_arbiter rs) (rs_trace rs).

Definition set_started (rs : RunState) (l : list dag.Node) : RunState :=
  mkRunState (rs_flow rs) (rs_locked rs) l (rs_exited rs)
    (rs_notifying rs) (rs_updated rs) (rs_refreshCh rs) (rs_cancelled rs)
    (rs_arbiter rs) (rs_trace rs).

Definition set_exited (rs : RunState) (l : list dag.Node) : RunState :=
  mkRunState (rs_flow rs) (rs_locked rs) (rs_started rs) l
    (rs_notifying rs) (rs_updated rs) (rs_refreshCh rs) (rs_cancelled rs)
    (rs_arbiter rs) (rs_trace rs).

Definition set_notifying (rs : RunState) (l : list dag.Node) : RunState :=
  mkRunState (rs_flow rs) (rs_locked rs) (rs_started rs) (rs_exited rs)
    l (rs_updated rs) (rs_refreshCh rs) (rs_cancelled rs)
    (rs_arbiter rs) (rs_trace rs).

Definition set_updated (rs : RunState) (l : list dag.Node) : RunState :=
  mkRunState (rs_flow rs) (rs_locked rs) (rs_started rs) (rs_exited rs)
    (rs_notifying rs) l (rs_refreshCh rs) (rs_cancelled rs)
    (rs_arbiter rs) (rs_trace rs).

Definition set_refreshCh (rs : RunState) (k : nat) : RunState :=
  mkRunState (rs_flow rs) (rs_locked rs) (rs_started rs) (rs_exited rs)
    (rs_notifying rs) (rs_updated rs) k (rs_cancelled rs)
    (rs_arbiter rs) (rs_trace rs).

Definition set_cancelled (rs : RunState) (b : bool) : RunState :=
  mkRunState (rs_flow rs) (rs_locked rs) (rs_started rs) (rs_exited rs)
    (rs_notifying rs) (rs_updated rs) (rs_refreshCh rs) b
    (rs_arbiter rs) (rs_trace rs).

Definition set_arbiter (rs : RunState) (a : arbiter_pc) : RunState :=
  mkRunState (rs_flow rs) (rs_locked rs) (rs_started rs) (rs_exited rs)
    (rs_notifying rs) (rs_updated rs) (rs_refreshCh rs) (rs_cancelled rs)
    a (rs_trace rs).

Definition emit (rs : RunState) (evs : list event) : RunState :=
  mkRunState (rs_flow rs) (rs_locked rs) (rs_started rs) (rs_exited rs)
    (rs_notifying rs) (rs_updated rs) (rs_refreshCh rs) (rs_cancelled rs)
    (rs_arbiter rs) (rs_trace rs ++ evs).

(** The state in which [Run] is entered. *)
Definition Run_init (f : Flow) : RunState :=
  mkRunState f false [] [] [] [] 0 false AIdle [].

(** The start-up loop of [Run] over [f.graph.Nodes()]: check the node, then
    [wg.Add(1)] and [go].  It returns at the first node whose [raw] is
    [nil]. *)
Fixpoint start_workers (ns : list dag.Node) (rs : RunState)
  : RunState * ret :=
  match ns with
  | [] => (rs, RetNil)
  | n :: rest =>
      match store (rs_flow rs) !! n with
      | None => (rs, RetPanic)
      | Some cn =>
          match raw cn with
          | None => (rs, RetErr (ErrNotInitialized (Name cn)))
          | Some _ =>
              start_workers rest
                (emit (set_started rs (rs_started rs ++ [n])) [EvGo n])
          end
      end
  end.

(** [Run] up to its [for] loop: lock, start the workers, unlock.  The early
    return inside the loop leaves the mutex locked; the deferred [wg.Wait]
    then waits for the workers already started. *)
Definition Run_start (f : Flow) : RunState :=
  let rs := emit (set_locked (Run_init f) true) [EvLock] in
  match start_workers (dag.Nodes (graph f)) rs with
  | (rs', RetNil) => emit (set_locked rs' false) [EvUnlock]
  | (rs', r) => set_arbiter rs' (AWaiting r)
  end.

(** The loop over [f.graph.Dependants(cn)] in the [Range] callback.
    [None] is a panic. *)
Fixpoint update_dependants (g : dag.Graph) (ds : list dag.Node)
    (st : list componentNode) (tr : list event)
  : option (list componentNode * list event) :=
  match ds with
  | [] => Some (st, tr)
  | n :: rest =>
      match st !! n with
      | None => None
      | Some cn =>
          let directDeps := dag.Dependencies g n in
          match BuildEvalContext st directDeps with
          | EctxPanic => None
          | EctxRet _ (Some err) =>
              update_dependants g rest st
                (tr ++ [EvLog (LogError "failed to update node" (Name cn) err)])
          | EctxRet ectx None =>
              let ectx := with_functions ectx in
              match raw cn with
              | None => None
              | Some c =>
                  let '(c', r) := Update c ectx (block cn) in
                  let st' := <[n := Set_ cn c']> st in
                  let tr' := tr ++ [EvUpdate n ectx st] in
                  match r with
                  | Some err =>
                      update_dependants g rest st'
                        (tr' ++ [EvLog (LogError "failed to update node"
                                                 (Name cn) err)])
                  | None => update_dependants g rest st' tr'
                  end
              end
          end
      end
  end.

(** The body of the [Range] callback for one key, up to its deferred
    [Delete]: log, lock, update the dependants, unlock. *)
Definition handle_updated (key : dag.Node) (rs : RunState) : option RunState :=
  let f := rs_flow rs in
  cn ← store f !! key;
  let tr := [EvLog (LogDebug "handling node with updated state" (Name cn));
             EvLock] in
  '(st', tr') ← update_dependants (graph f) (dag.Dependants (graph f) key)
                   (store f) tr;
  Some (emit (set_flow rs (set_store f st')) (tr' ++ [EvUnlock])).

(** The notification callback, first statement: [updated.Store(cn, ...)]. *)
Definition notify_store (n : dag.Node) (rs : RunState) : RunState :=
  let upd := if decide (n ∈ rs_updated rs) then rs_updated rs
             else rs_updated rs ++ [n] in
  emit (set_notifying (set_updated rs upd) (rs_notifying rs ++ [n]))
       [EvStore n].

(** The notification callback, second statement: the [select] with a
    [default] branch.  The token is sent if the buffer has room and dropped
    otherwise. *)
Definition notify_send (n : dag.Node) (rs : RunState) : RunState :=
  let rs' := set_notifying rs (filter (λ m, m ≠ n) (rs_notifying rs)) in
  if decide (rs_refreshCh rs < 1)
  then emit (set_refreshCh rs' (S (rs_refreshCh rs))) [EvSend true]
  else emit rs' [EvSend false].

(** A plain send [refreshCh <- struct{}{}], for comparison: it can proceed
    only when the buffer has room. *)
Definition blocking_send (rs : RunState) : option RunState :=
  if decide (rs_refreshCh rs < 1)
  then Some (emit (set_refreshCh rs (S (rs_refreshCh rs))) [EvSend true])
  else None.

(** The worker after [cn.raw.Run] has returned: log the error if there is
    one, then [wg.Done]. *)
Definition worker_exit (n : dag.Node) (err : option error) (rs : RunState)
  : RunState :=
  let name := from_option Name ""%string (store (rs_flow rs) !! n) in
  let rs' := set_exited rs (rs_exited rs ++ [n]) in
  match err with
  | Some e => emit rs' [EvLog (LogError "node exited with error" name e)]
  | None => rs'
  end.

Definition running (rs : RunState) (n : dag.Node) : Prop :=
  n ∈ rs_started rs ∧ (n ∉ rs_exited rs) ∧ (n ∉ rs_notifying rs).

#[global] Instance running_dec rs n : Decision (running rs n).
Proof. unfold running. apply _. Defined.

(** The atomic actions of the goroutines of [Run]. *)
Inductive label :=
| LNotifyStore (n : dag.Node)   (* worker: first statement of the callback *)
| LNotifySend (n : dag.Node)    (* worker: second statement of the callback *)
| LSetState (n : dag.Node) (c : Comp)  (* a component changes its own state *)
| LExit (n : dag.Node) (err : option error)   (* [cn.raw.Run] returns *)
| LCancel                       (* the context is cancelled *)
| LRecv                         (* [case <-refreshCh] *)
| LVisit (key : dag.Node)       (* [Range] calls the callback on a key *)
| LDelete                       (* the deferred [updated.Delete(key)] *)
| LRangeEnd                     (* [Range] returns *)
| LDone                         (* [case <-ctx.Done(): return nil] *)
| LReturn.                      (* [wg.Wait] is over, [Run] returns *)

(** One step; [None] when the action cannot be taken in the state.
    [Range] visits no key twice, must visit the keys that were present when
    it started and are still there, and may visit keys stored since. *)
Definition step (rs : RunState) (l : label) : option RunState :=
  match l with
  | LNotifyStore n =>
      if decide (running rs n) then Some (notify_store n rs) else None
  | LNotifySend n =>
      if decide (n ∈ rs_notifying rs) then Some (notify_send n rs) else None
  | LSetState n c =>
      if decide (running rs n) then
        cn ← store (rs_flow rs) !! n;
        Some (set_flow rs (set_store (rs_flow rs)
                (<[n := Set_ cn c]> (store (rs_flow rs)))))
      else None
  | LExit n err =>
      if decide (running rs n) then Some (worker_exit n err rs) else None
  | LCancel => Some (set_cancelled rs true)
  | LRecv =>
      match rs_arbiter rs with
      | AIdle =>
          if decide (0 < rs_refreshCh rs)
          then Some (set_arbiter (set_refreshCh rs (rs_refreshCh rs - 1))
                       (ARange (rs_updated rs) []))
          else None
      | _ => None
      end
  | LVisit key =>
      match rs_arbiter rs with
      | ARange snap vis =>
          if decide (key ∈ rs_updated rs ∧ (key ∉ vis) ∧ rs_locked rs = false)
          then match handle_updated key rs with
               | Some rs' => Some (set_arbiter rs' (AHandled key snap vis))
               | None => Some (set_arbiter rs APanicked)
               end
          else None
      | _ => None
      end
  | LDelete =>
      match rs_arbiter rs with
      | AHandled key snap vis =>
          Some (emit (set_arbiter
                        (set_updated rs (filter (λ m, m ≠ key) (rs_updated rs)))
                        (ARange (filter (λ m, m ≠ key) snap) (key :: vis)))
                     [EvDelete key])
      | _ => None
      end
  | LRangeEnd =>
      match rs_arbiter rs with
      | ARange snap vis =>
          if decide (snap ⊆ vis) then Some (set_arbiter rs AIdle) else None
      | _ => None
      end
  | LDone =>
      match rs_arbiter rs with
      | AIdle =>
          if rs_cancelled rs then Some (set_arbiter rs (AWaiting RetNil))
          else None
      | _ => None
      end
  | LReturn =>
      match rs_arbiter rs with
      | AWaiting r =>
          if decide (rs_started rs ⊆ rs_exited rs)
          then Some (emit (set_arbiter rs (AReturned r)) [EvReturn r])
          else None
      | _ => None
      end
  end.

(** A schedule is a list of labels. *)
Fixpoint exec (rs : RunState) (ls : list label) : option RunState :=
  match ls with
  | [] => Some rs
  | l :: rest => rs' ← step rs l; exec rs' rest
  end.


(** ** What the properties of [Run] speak about *)

(** The runtime can be run: the edges of the graph join nodes of the graph
    and every node is initialized. *)
Definition run_ready (f : Flow) : Prop :=
  (∀ e, e ∈ dag.edges (graph f) →
        dag.From e ∈ dag.nodes (graph f) ∧ dag.To e ∈ dag.nodes (graph f)) ∧
  ∀ n, n ∈ dag.nodes (graph f) → initialized (store f) n.

(** [run_ready], as a check. *)
Definition run_readyb (f : Flow) : bool :=
  forallb (λ e, bool_decide (dag.From e ∈ dag.nodes (graph f) ∧
                             dag.To e ∈ dag.nodes (graph f)))
          (dag.edges (graph f)) &&
  forallb (λ n, match store f !! n with
                | Some cn => match raw cn with Some _ => true | None => false end
                | None => false
                end)
          (dag.nodes (graph f)).

(** The calls of [Update] recorded in a trace: the node, the context and
    the store at the call. *)
Definition update_calls (tr : list event)
  : list (dag.Node * option (EvalContext Value) * list componentNode) :=
  omap (λ e, match e with
             | EvUpdate n ectx st => Some (n, ectx, st)
             | _ => None
             end) tr.

(** The errors logged in a trace. *)
Definition logged_errors (tr : list event) : list (string * string * error) :=
  omap (λ e, match e with
             | EvLog (LogError msg node err) => Some (msg, node, err)
             | _ => None
             end) tr.

(** The log entry that a call of [Update] leads to when it fails. *)
Definition update_error
    (call : dag.Node * option (EvalContext Value) * list componentNode)
  : option (string * string * error) :=
  let '(d, ectx, st) := call in
  cn ← st !! d; c ← raw cn; err ← (Update c ectx (block cn)).2;
  Some ("failed to update node"%string, Name cn, err).

(** The context of a call binds every direct dependency of the updated
    node, in order, to its reference and to its exported state in the store
    of the call, and carries the built-in functions. *)
Definition call_ok (g : dag.Graph)
    (call : dag.Node * option (EvalContext Value) * list componentNode)
  : Prop :=
  let '(d, ectx, st) := call in
  ∃ e, ectx = Some e ∧ Functions e = funcMap ∧
       Forall2 (λ dep b, ∃ cn c, st !! dep = Some cn ∧ raw cn = Some c ∧
                                 b = (ref cn, CurrentState c))
               (dag.Dependencies g d) (Variables e).

(** The stores of successive calls follow each other: the first call sees
    [st0], and each later call the store left by the [Update] before it. *)
Fixpoint stores_follow (st0 : list componentNode)
    (calls : list (dag.Node * option (EvalContext Value) * list componentNode))
  : Prop :=
  match calls with
  | [] => True
  | (d, ectx, st) :: rest =>
      st = st0 ∧
      ∃ cn c, st !! d = Some cn ∧ raw cn = Some c ∧
        stores_follow (<[d := Set_ cn (Update c ectx (block cn)).1]> st) rest
  end.

(** The arbiter is inside a [Range] that still has to call, or is calling,
    its callback on [n]. *)
Definition will_visit (a : arbiter_pc) (n : dag.Node) : Prop :=
  match a with
  | ARange snap vis => n ∈ snap ∧ n ∉ vis
  | AHandled key snap vis => n = key ∨ (n ∈ snap ∧ n ∉ vis)
  | _ => False
  end.

(** No stored node is forgotten: for every node in the updated set a token
    is pending in the channel, or a callback is about to send one, or the
    arbiter is in a [Range] that has the node before it. *)
Definition covered (rs : RunState) : Prop :=
  ∀ n, n ∈ rs_updated rs →
    rs_refreshCh rs = 1 ∨ rs_notifying rs ≠ [] ∨ will_visit (rs_arbiter rs) n.

(** The arbiter has neither panicked nor left its loop other than through
    [ctx.Done()]. *)
Definition arbiter_ok (rs : RunState) : Prop :=
  match rs_arbiter rs with
  | APanicked => False
  | AWaiting r | AReturned r => r = RetNil ∧ rs_cancelled rs = true
  | _ => True
  end.

(** The invariant of a run of the runtime [f]. *)
Record run_inv (f : Flow) (rs : RunState) : Prop := mkRunInv {
  inv_graph : graph (rs_flow rs) = graph f;
  inv_ready : run_ready (rs_flow rs);
  inv_started : rs_started rs = dag.nodes (graph f);
  inv_updated : ∀ n, n ∈ rs_updated rs → n ∈ dag.nodes (graph f);
  inv_unlocked : rs_locked rs = false;
  inv_capacity : rs_refreshCh rs ≤ 1;
  inv_arbiter : arbiter_ok rs;
  inv_covered : covered rs
}.


(** ** Further notions for [Load] and [Run] *)

(** What [Load] and [Run] never change in a node: its reference and its
    block. *)
Definition shape (cn : componentNode) : reference * hcl.Block :=
  (ref cn, block cn).

(** Reading a trace with the mutex in mind: [Lock] needs the mutex free and
    [Unlock] needs it held; a worker is started and [Update] is called only
    while it is held.  The result is whether the mutex is held at the end,
    or [None] when the trace breaks one of these rules. *)
Fixpoint lock_trace (held : bool) (tr : list event) : option bool :=
  match tr with
  | [] => Some held
  | EvLock :: tr' => if held then None else lock_trace true tr'
  | EvUnlock :: tr' => if held then lock_trace false tr' else None
  | EvGo _ :: tr' => if held then lock_trace held tr' else None
  | EvUpdate _ _ _ :: tr' => if held then lock_trace held tr' else None
  | _ :: tr' => lock_trace held tr'
  end.

(** A burst of notifications: each node of the list runs the callback to
    its end, one after the other. *)
Definition notify_script (ns : list dag.Node) : list label :=
  flat_map (λ n, [LNotifyStore n; LNotifySend n]) ns.

(** Nothing is left for the arbiter to observe: the updated set and the
    buffer of the channel are empty, no callback stands between its two
    statements, and the arbiter is not inside a [Range]. *)
Definition quiet (rs : RunState) : Prop :=
  rs_updated rs = [] ∧ rs_refreshCh rs = 0 ∧ rs_notifying rs = [] ∧
  match rs_arbiter rs with
  | AIdle | AWaiting _ | AReturned _ => True
  | _ => False
  end.

(** The action is the first statement of a notification callback. *)
Definition is_store (l : label) : bool :=
  match l with
  | LNotifyStore _ => true
  | _ => false
  end.

End Runtime.
End flow.

(** ** The [convert] sub-command *)

Module flowmode.

(** Modelled from the spec: the severities of [converter/diag], which is not
    among the verified files: warning, error and critical. *)
Inductive Severity :=
| SeverityLevelWarn
| SeverityLevelError
| SeverityLevelCritical.

#[global] Instance Severity_eq_dec : EqDecision Severity.
Proof. solve_decision. Defined.

Record Diagnostic := mkDiagnostic {
  DSeverity : Severity;
  Message : string
}.

Definition Diagnostics := list Diagnostic.

(** A Go [error] of this package: a message, or the diagnostics returned as
    an error. *)
Inductive error :=
| ErrMsg (msg : string)
| ErrDiags (diags : Diagnostics).

(** [flowConvert]. *)
Record flowConvert := mkFlowConvert {
  output : string;
  report : string;
  sourceFormat : string;
  bypassErrors : bool;
  extraArgs : string
}.

(** [hasErrorLevel]: some diagnostic has exactly the given severity. *)
Fixpoint hasErrorLevel (ds : Diagnostics) (sev : Severity) : bool :=
  match ds with
  | [] => false
  | d :: rest =>
      if decide (DSeverity d = sev) then true else hasErrorLevel rest sev
  end.

(** [pflag.ErrorHandling]. *)
Inductive ErrorHandling := ContinueOnError | ExitOnError | PanicOnError.

(** What [FlagSet.Parse] does: it returns, with the slice as its writes
    through the registered pointers leave it and with its error, or it ends
    the process.  A flag set made with [ExitOnError] ends the process where
    one made with [ContinueOnError] returns the error. *)
Inductive parse_outcome :=
| Parsed (result : list string) (err : option string)
| Exited (code : nat).

(** The flag library [pflag], as far as [parseExtraArgs] uses it.  A target
    pointer [&result[k]] is given by its index [k].  Registering a flag can
    panic ([None]).  [Parse] is given the result slice as it stands. *)
Class PFlag := {
  FlagSet : Type;
  NewFlagSet : string → ErrorHandling → FlagSet;
  StringVar : FlagSet → nat → string → string → option FlagSet;
  StringVarP : FlagSet → nat → string → string → string → option FlagSet;
  Parse : FlagSet → list string → list string → parse_outcome
}.

(** Where the output goes. *)
Inductive dest := Stdout | ToFile (path : string).

(** The file-system effects of the pipeline, in order. *)
Inductive effect :=
| EffCreate (path : string)
| EffReport (path : string) (diags : Diagnostics)
| EffCopy (d : dest) (bytes : string).

(** The collaborators of [convert]: the converter and the file system.  An
    operation of the file system returns [None] or the message of its
    error. *)
Class ConvertEnv := {
  converter_Convert : string → string → list string → string * Diagnostics;
  os_Create : string → option string;
  GenerateReport : Diagnostics → option string;
  io_Copy : dest → string → option string
}.

(** What a function returning [([]string, error)] does: return, panic, or
    end the process. *)
Inductive parse_result :=
| ParseRet (result : list string) (err : option error)
| ParsePanic
| ParseExit (code : nat).

(** What a function returning [error] does, with its effects. *)
Inductive conv_result :=
| ConvRet (err : option error) (effects : list effect)
| ConvPanic
| ConvExit (code : nat).

Section Convert.
Context `{!PFlag} `{!ConvertEnv}.

Definition dash : ascii := "-"%char.
Definition equals : ascii := "="%char.

(** The loop of [parseExtraArgs]; [i] is the index of [arg] in
    [arguments].  [None] is a panic: [arg[1]] on a one-byte argument,
    [split[i]] beyond the split, a slice beyond the end of the string, or
    the registration of the flag. *)
Fixpoint parse_loop (i : nat) (arguments : list string)
    (result : list string) (fs : FlagSet) : option (list string * FlagSet) :=
  match arguments with
  | [] => Some (result, fs)
  | arg :: rest =>
      c ← gostrings.index arg 1;
      let split := gostrings.SplitN2 arg equals in
      s0 ← split !! 0;
      let result := result ++ [s0] in
      if decide (length split = 2 ∧ split !! 1 ≠ Some ""%string) then
        let result := result ++ [""%string] in
        let last := length result - 1 in
        si ← split !! i;
        if decide (c = dash) then
          name ← gostrings.slice_from si 2;
          fs' ← StringVar fs last name "";
          parse_loop (S i) rest result fs'
        else
          short ← gostrings.slice_from si 1;
          fs' ← StringVarP fs last "" short "";
          parse_loop (S i) rest result fs'
      else parse_loop (S i) rest result fs
  end.

(** [parseExtraArgs]. *)
Definition parseExtraArgs (extra : string) : parse_result :=
  if decide (extra = ""%string) then ParseRet [] None
  else
    let arguments := gostrings.Fields extra in
    match parse_loop 0 arguments [] (NewFlagSet "extra-args" ExitOnError) with
    | None => ParsePanic
    | Some (result, fs) =>
        match Parse fs arguments result with
        | Parsed result' err => ParseRet result' (ErrMsg <$> err)
        | Exited code => ParseExit code
        end
    end.

(** What the specification asks of [parseExtraArgs], in its words: for each
    white-space separated argument, the text before any "=", followed by
    the value when a non-empty "=value" is present. *)
Definition extra_args_expected (extra : string) : list string :=
  flat_map (λ arg,
    match gostrings.cut equals arg with
    | Some (name, value) =>
        if decide (value = ""%string) then [name] else [name; value]
    | None => [arg]
    end) (gostrings.Fields extra).

(** [generateConvertReport]. *)
Definition generateConvertReport (diags : Diagnostics) (fc : flowConvert)
  : option error * list effect :=
  if decide (report fc ≠ ""%string) then
    match os_Create (report fc) with
    | Some err => (Some (ErrMsg err), [])
    | None =>
        (ErrMsg <$> GenerateReport diags,
         [EffCreate (report fc); EffReport (report fc) diags])
    end
  else (None, []).

(** [convert]; the reader [r] is given by what [io.ReadAll] gets from
    it. *)
Definition convert (r : string + string) (fc : flowConvert) : conv_result :=
  match r with
  | inr err => ConvRet (Some (ErrMsg err)) []
  | inl inputBytes =>
      match parseExtraArgs (extraArgs fc) with
      | ParsePanic => ConvPanic
      | ParseExit code => ConvExit code
      | ParseRet _ (Some err) => ConvRet (Some err) []
      | ParseRet ea None =>
          let '(riverBytes, diags) :=
            converter_Convert inputBytes (sourceFormat fc) ea in
          match generateConvertReport diags fc with
          | (Some err, effs) => ConvRet (Some err) effs
          | (None, effs) =>
              let hasError := hasErrorLevel diags SeverityLevelError in
              let hasCritical := hasErrorLevel diags SeverityLevelCritical in
              if hasCritical || (negb (bypassErrors fc) && hasError)
              then ConvRet (Some (ErrDiags diags)) effs
              else if decide (output fc = ""%string)
              then ConvRet (ErrMsg <$> io_Copy Stdout riverBytes)
                           (effs ++ [EffCopy Stdout riverBytes])
              else
                match os_Create (output fc) with
                | Some err => ConvRet (Some (ErrMsg err)) effs
                | None =>
                    ConvRet (ErrMsg <$> io_Copy (ToFile (output fc)) riverBytes)
                      (effs ++ [EffCreate (output fc);
                                EffCopy (ToFile (output fc)) riverBytes])
                end
          end
      end
  end.



End Convert.

(** The file system as [flowConvert.Run] sees it: what [io.ReadAll] gets
    from standard input; [os.Stat], which fails or tells whether the path
    is a directory; [os.Open], which fails or gives a reader, itself given
    by what [io.ReadAll] gets from it. *)
Class FileEnv := {
  os_Stdin : string + string;
  os_Stat : string → string + bool;
  os_Open : string → string + (string + string)
}.

Section ConvertRun.
Context `{!PFlag} `{!ConvertEnv} `{!FileEnv}.

(** [flowConvert.Run]. *)
Definition Run (fc : flowConvert) (configFile : string) : conv_result :=
  if decide (sourceFormat fc = ""%string)
  then ConvRet (Some (ErrMsg "source-format is a required flag")) []
  else if decide (configFile = "-"%string) then convert os_Stdin fc
  else
    match os_Stat configFile with
    | inl err => ConvRet (Some (ErrMsg err)) []
    | inr isDir =>
        if isDir then ConvRet (Some (ErrMsg "cannot convert a directory")) []
        else
          match os_Open configFile with
          | inl err => ConvRet (Some (ErrMsg err)) []
          | inr f => convert f fc
          end
    end.

End ConvertRun.
End flowmode.

(** ** Concrete collaborators and inputs *)

Module examples.
Import flow.

(** A component whose state and exported value are a number.  [Update]
    stores the sum of the values bound in the context and fails when there
    is no context or the sum is zero. *)
#[global] Instance counter : Component nat nat := {|
  CurrentState := λ c, c;
  Update := λ c ectx _,
    match ectx with
    | Some e =>
        let v := foldr Nat.add 0 (snd <$> Variables e) in
        (v, if decide (v = 0) then Some (ErrExternal "zero input") else None)
    | None => (c, Some (ErrExternal "no context"))
    end
|}.

Definition source_s : hcl.Block :=
  hcl.mkBlock "source" ["s"%string]
    (hcl.mkBody [hcl.mkAttribute "v" []] []).

Definition filter_f : hcl.Block :=
  hcl.mkBlock "filter" ["f"%string]
    (hcl.mkBody [hcl.mkAttribute "in" [["source"; "s"; "out"]%string]] []).

Definition sink_k : hcl.Block :=
  hcl.mkBlock "sink" ["k"%string]
    (hcl.mkBody [hcl.mkAttribute "in" [["filter"; "f"; "out"]%string]] []).

(** A block without labels, reading a name that no component has. *)
Definition lonely : hcl.Block :=
  hcl.mkBlock "lonely" []
    (hcl.mkBody [hcl.mkAttribute "x" [["foo"; "bar"; "baz"]%string]] []).

Definition parse_error : hcl.Diagnostic :=
  hcl.mkDiagnostic hcl.DiagError "Invalid expression".

(** A small world: three files; the parsed body is the list of its blocks;
    the builder gives a component the number of values bound in its
    context, plus one. *)
#[global] Instance world : Externals nat nat (list hcl.Block) := {|
  os_ReadFile := λ path,
    if decide (path = "chain.river"%string) then inl "chain"%string
    else if decide (path = "broken.river"%string) then inl "broken"%string
    else if decide (path = "lonely.river"%string) then inl "lonely"%string
    else inr "no such file"%string;
  hclsyntax_ParseConfig := λ bb _,
    if decide (bb = "chain"%string) then ([source_s; filter_f; sink_k], [])
    else if decide (bb = "lonely"%string) then ([lonely], [])
    else ([], [parse_error]);
  gohcl_DecodeBody := λ body, (mkRootBlock "" "" body body, []);
  body_Content := λ body, (body, []);
  component_BuildHCL := λ _ bctx _,
    inl (S (from_option (λ e, length (Variables e)) 0 (BuildEvalCtx bctx)));
  exports_has := λ _ path, bool_decide (path = ["out"%string])
|}.

Definition chain_flow : @Flow nat := New [] "chain.river".
Definition broken_flow : @Flow nat := New [] "broken.river".
Definition lonely_flow : @Flow nat := New [] "lonely.river".

(** The runtime after loading the chain. *)
Definition chain_loaded : @Flow nat :=
  Eval vm_compute in load_flow (Load chain_flow).

(** A runtime whose second node was never built. *)
Definition half_built : @Flow nat :=
  mkFlow [] "half.river"
    [Set_ (newComponentNode source_s) 1; newComponentNode filter_f]
    (dag.mkGraph [0; 1] [dag.mkEdge 1 0])
    (mkNametable [(["source"; "s"]%string, 0); (["filter"; "f"]%string, 1)]).

(** The node [source.s] notifies, and the arbiter receives the token. *)
Definition chain_script : list (@label nat) :=
  [LNotifyStore 0; LNotifySend 0; LRecv].

Definition chain_notified : @RunState nat nat :=
  Eval vm_compute in
  default (Run_start chain_loaded) (exec (Run_start chain_loaded) chain_script).

(** The arbiter has then handled [source.s]. *)
Definition chain_handled : @RunState nat nat :=
  Eval vm_compute in default chain_notified (step chain_notified (LVisit 0)).

(** [source.s] has notified and [filter.f] is between its store and its
    send, with the buffer of the channel full. *)
Definition burst_script : list (@label nat) :=
  [LNotifyStore 0; LNotifySend 0; LNotifyStore 1].

Definition burst : @RunState nat nat :=
  Eval vm_compute in
  default (Run_start chain_loaded) (exec (Run_start chain_loaded) burst_script).

(** [source.s] notifies and the arbiter handles it, up to the deferred
    [Delete]; there [source.s] changes its state to 5 and notifies again:
    it stores itself and sends a token with success. *)
Definition resend_script : list (@label nat) :=
  [LNotifyStore 0; LNotifySend 0; LRecv; LVisit 0;
   LSetState 0 5; LNotifyStore 0; LNotifySend 0].

Definition chain_resent : @RunState nat nat :=
  Eval vm_compute in
  default (Run_start chain_loaded) (exec (Run_start chain_loaded) resend_script).

(** The deferred [Delete] then runs and the [Range] ends; the arbiter
    receives the second token and ranges again. *)
Definition drain_script : list (@label nat) :=
  [LDelete; LRangeEnd; LRecv; LRangeEnd].

Definition chain_lost : @RunState nat nat :=
  Eval vm_compute in default chain_resent (exec chain_resent drain_script).

(** The name that a flag argument gives: the text after its dashes and
    before its "=". *)
Definition flag_name (a : string) : string :=
  let body :=
    if String.prefix "--" a
    then String.substring 2 (String.length a - 2) a
    else String.substring 1 (String.length a - 1) a in
  default body (fst <$> gostrings.cut flowmode.equals body).

(** [Parse] of the flag library of the examples, after pflag's with
    [ExitOnError]: an argument that does not begin with "-", or is "-"
    alone, is positional; "--" ends the flags; any other argument names a
    flag, and the process ends with code 2 when no such flag is registered
    or when the flag lacks its value.  The value of a registered flag, the
    text after "=" or else the next argument, is written through the
    registered pointer.  Shorthands are not combined. *)
Fixpoint simple_parse (fs : list (nat * string * string))
    (args result : list string) : flowmode.parse_outcome :=
  match args with
  | [] => flowmode.Parsed result None
  | a :: rest =>
      if decide (a = "--"%string) then flowmode.Parsed result None
      else if (negb (String.prefix "-" a) || Nat.ltb (String.length a) 2)%bool
      then simple_parse fs rest result
      else
        let long := String.prefix "--" a in
        match find (λ r, if long then String.eqb r.1.2 (flag_name a)
                         else String.eqb r.2 (flag_name a)) fs with
        | None => flowmode.Exited 2
        | Some r =>
            match gostrings.cut flowmode.equals a with
            | Some (_, v) => simple_parse fs rest (<[r.1.1 := v]> result)
            | None =>
                match rest with
                | [] => flowmode.Exited 2
                | v :: rest' => simple_parse fs rest' (<[r.1.1 := v]> result)
                end
            end
        end
  end.

(** A flag library for the examples: a flag set is the list of its
    registrations (target, name, shorthand); names and shorthands are
    unique and a shorthand is one byte. *)
#[global] Instance simple_pflag : flowmode.PFlag := {|
  flowmode.FlagSet := list (nat * string * string);
  flowmode.NewFlagSet := λ _ _, [];
  flowmode.StringVar := λ fs slot name _,
    if decide (name ∈ (λ r, r.1.2) <$> fs) then None
    else Some (fs ++ [(slot, name, ""%string)]);
  flowmode.StringVarP := λ fs slot name short _,
    if decide (name ∈ (λ r, r.1.2) <$> fs ∨ 1 < String.length short) then None
    else Some (fs ++ [(slot, name, short)]);
  flowmode.Parse := simple_parse
|}.

Definition critical_diag : flowmode.Diagnostic :=
  flowmode.mkDiagnostic flowmode.SeverityLevelCritical "unsupported".

Definition error_diag : flowmode.Diagnostic :=
  flowmode.mkDiagnostic flowmode.SeverityLevelError "dropped field".

(** A converter that reports an error for every input, and a file system
    on which every operation succeeds. *)
#[global] Instance conv_env : flowmode.ConvertEnv := {|
  flowmode.converter_Convert := λ input _ _, (input, [error_diag]);
  flowmode.os_Create := λ _, None;
  flowmode.GenerateReport := λ _, None;
  flowmode.io_Copy := λ _ _, None
|}.


(** The same conversion with errors bypassed. *)
Definition lenient : flowmode.flowConvert :=
  flowmode.mkFlowConvert "out.river" "report.txt" "prometheus" true "".

(** A file system with one regular file and one directory. *)
#[global] Instance file_env : flowmode.FileEnv := {|
  flowmode.os_Stdin := inl "global: {}"%string;
  flowmode.os_Stat := λ path,
    if decide (path = "prom.yaml"%string) then inr false
    else if decide (path = "configs"%string) then inr true
    else inl "no such file or directory"%string;
  flowmode.os_Open := λ path,
    if decide (path = "prom.yaml"%string) then inr (inl "scrape_configs: []"%string)
    else inl "no such file or directory"%string
|}.

(** A block that reads a field which [source.s] does not export. *)
Definition dangling_filter : hcl.Block :=
  hcl.mkBlock "filter" ["g"%string]
    (hcl.mkBody [hcl.mkAttribute "in" [["source"; "s"; "missing"]%string]] []).

(** A second world, in which every file holds [source.s] and that block.
    It is passed by hand where it is used. *)
Definition world_badref : Externals nat nat (list hcl.Block) := {|
  os_ReadFile := λ path, inl path;
  hclsyntax_ParseConfig := λ _ _, ([source_s; dangling_filter], []);
  gohcl_DecodeBody := λ body, (mkRootBlock "" "" body body, []);
  body_Content := λ body, (body, []);
  component_BuildHCL := λ _ bctx _,
    inl (S (from_option (λ e, length (Variables e)) 0 (BuildEvalCtx bctx)));
  exports_has := λ _ path, bool_decide (path = ["out"%string])
|}.

(** A third world, in which every file holds the chain and the builder
    fails on components of kind "filter".  It is passed by hand where it is used. *)
Definition world_failing : Externals nat nat (list hcl.Block) := {|
  os_ReadFile := λ path, inl path;
  hclsyntax_ParseConfig := λ _ _, ([source_s; filter_f; sink_k], []);
  gohcl_DecodeBody := λ body, (mkRootBlock "" "" body body, []);
  body_Content := λ body, (body, []);
  component_BuildHCL := λ kind bctx _,
    if decide (kind = "filter"%string)
    then inr (ErrExternal "bad arguments")
    else inl (S (from_option (λ e, length (Variables e)) 0 (BuildEvalCtx bctx)));
  exports_has := λ _ path, bool_decide (path = ["out"%string])
|}.

(** The chain after a full refresh cycle for [source.s]. *)
Definition cycle_script : list (@label nat) :=
  [LNotifyStore 0; LNotifySend 0; LRecv; LVisit 0; LDelete; LRangeEnd].

Definition chain_cycled : @RunState nat nat :=
  Eval vm_compute in
  default (Run_start chain_loaded) (exec (Run_start chain_loaded) cycle_script).

(** The chain after cancellation, the exit of the three workers and the
    return of [Run]. *)
Definition shutdown_script : list (@label nat) :=
  [LCancel; LDone; LExit 0 None; LExit 2 (Some (ErrExternal "closed"));
   LExit 1 None; LReturn].

Definition chain_returned : @RunState nat nat :=
  Eval vm_compute in
  default (Run_start chain_loaded)
          (exec (Run_start chain_loaded) shutdown_script).

(** A runtime loaded from a file whose only block reads a name that no
    component has. *)
Definition lonely_loaded : @Flow nat :=
  Eval vm_compute in load_flow (Load lonely_flow).

End examples.

(* ===================================================================== *)
(** * Part II: properties                                                 *)
(* ===================================================================== *)

(** ** The graph engine *)

Section DagFacts.
Import dag.
Implicit Types (g : Graph) (a b n : Node) (l : list Node).

Lemma elem_of_Dependencies g a b : b ∈ Dependencies g a ↔ has_edge g a b.
Proof.
  unfold Dependencies, has_edge. rewrite list_elem_of_fmap. split.
  - intros ([f t] & -> & He). apply list_elem_of_filter in He as [Hf He].
    simpl in *. by subst.
  - intros He. exists (mkEdge a b). split; [done|].
    by apply list_elem_of_filter.
Qed.

Lemma elem_of_Dependants g a b : a ∈ Dependants g b ↔ has_edge g a b.
Proof.
  unfold Dependants, has_edge. rewrite list_elem_of_fmap. split.
  - intros ([f t] & -> & He). apply list_elem_of_filter in He as [Hf He].
    simpl in *. by subst.
  - intros He. exists (mkEdge a b). split; [done|].
    by apply list_elem_of_filter.
Qed.

Lemma walk_app g a l1 l2 b :
  walk g a (l1 ++ l2) b ↔ ∃ m, walk g a l1 m ∧ walk g m l2 b.
Proof.
  revert a. induction l1 as [|x l1 IH]; intros a; simpl.
  - split; [intros Hw; by exists a | by intros (m & -> & Hw)].
  - rewrite IH. split.
    + intros (He & m & H1 & H2). by exists m.
    + intros (m & (He & H1) & H2). split; [done|by exists m].
Qed.

Lemma walk_nodes g a l b :
  wf g → walk g a l b → ∀ x, x ∈ l → x ∈ nodes g.
Proof.
  intros Hwf. revert a. induction l as [|y l IH]; intros a; simpl.
  - intros _ x Hx. by apply elem_of_nil in Hx.
  - intros [He Hw] x Hx. apply elem_of_cons in Hx as [->|Hx].
    + by apply (wf_edges _ Hwf) in He as [_ ?].
    + by eapply IH.
Qed.

Lemma walk_source g a l b :
  wf g → walk g a l b → l ≠ [] → a ∈ nodes g.
Proof.
  intros Hwf Hw Hl. destruct l as [|x l]; [done|].
  destruct Hw as [He _]. by apply (wf_edges _ Hwf) in He as [? _].
Qed.

Lemma walk_target g a l b :
  wf g → a ∈ nodes g → walk g a l b → b ∈ nodes g.
Proof.
  intros Hwf Ha Hw. destruct l as [|x l] using rev_ind.
  - simpl in Hw. by subst.
  - apply walk_app in Hw as (m & _ & He & <-).
    by apply (wf_edges _ Hwf) in He as [_ ?].
Qed.

Lemma walk_nodup g a l b : acyclic g → walk g a l b → NoDup (a :: l).
Proof.
  intros Hac. revert a. induction l as [|x l IH]; intros a Hw.
  - apply NoDup_singleton.
  - apply NoDup_cons. split; [|apply IH, Hw].
    intros Ha. apply list_elem_of_split in Ha as (l1 & l2 & Heq).
    rewrite Heq in Hw.
    change (a :: l2) with ([a] ++ l2) in Hw. rewrite app_assoc in Hw.
    apply walk_app in Hw as (m & Hw & _).
    assert (m = a) as ->.
    { apply walk_app in Hw as (m' & _ & _ & Hm). by simpl in Hm. }
    eapply Hac; [|exact Hw]. by destruct l1.
Qed.

Lemma walk_length g a l b :
  wf g → walk g a l b → length l ≤ length (nodes g).
Proof.
  intros Hwf Hw. destruct l as [|x l]; [simpl; lia|].
  pose proof (walk_nodup _ _ _ _ (wf_acyclic _ Hwf) Hw) as Hnd.
  assert (a :: x :: l ⊆+ nodes g) as Hsub.
  { apply NoDup_submseteq; [done|]. intros y Hy.
    apply elem_of_cons in Hy as [->|Hy].
    - by eapply walk_source.
    - by eapply walk_nodes. }
  apply submseteq_length in Hsub. simpl in *. lia.
Qed.

Lemma reach_fuel_complete g k a l b :
  walk g a l b → length l ≤ k → reach_fuel k g a b = true.
Proof.
  revert a l. induction k as [|k IH]; intros a l Hw Hk.
  - destruct l; [|simpl in Hk; lia]. simpl in *. by apply bool_decide_eq_true.
  - destruct l as [|x l]; simpl in *.
    + apply orb_true_iff. left. by apply bool_decide_eq_true.
    + destruct Hw as [He Hw]. apply orb_true_iff. right.
      apply existsb_exists. exists x. split.
      * apply list_elem_of_In. by apply elem_of_Dependencies.
      * apply (IH _ l); [done|lia].
Qed.

Lemma reach_fuel_sound g k a b :
  reach_fuel k g a b = true → reaches g a b.
Proof.
  revert a. induction k as [|k IH]; intros a; simpl.
  - intros ->%bool_decide_eq_true. by exists [].
  - intros [Heq|Hex]%orb_true_iff.
    { apply bool_decide_eq_true in Heq as ->. by exists []. }
    apply existsb_exists in Hex as (x & Hx & Hr).
    apply IH in Hr as [l Hw]. exists (x :: l). split; [|done].
    by apply elem_of_Dependencies, list_elem_of_In.
Qed.

Lemma reachb_spec g a b : wf g → reachb g a b = true ↔ reaches g a b.
Proof.
  intros Hwf. split; [apply reach_fuel_sound|].
  intros [l Hw]. eapply reach_fuel_complete; [done|]. by eapply walk_length.
Qed.


Lemma walk_subgraph g g' a l b :
  (∀ e, e ∈ edges g' → e ∈ edges g) → walk g' a l b → walk g a l b.
Proof.
  intros Hsub. revert a. induction l as [|x l IH]; intros a; simpl; [done|].
  intros [He Hw]. split; [by apply Hsub|by apply IH].
Qed.

Lemma wf_empty : wf empty.
Proof.
  split.
  - apply NoDup_nil_2.
  - intros e He. by apply elem_of_nil in He.
  - intros a [|x l] Hl; [done|]. intros [He _]. by apply elem_of_nil in He.
Qed.

Lemma Add_wf g n : wf g → wf (Add g n).1.
Proof.
  intros Hwf. unfold Add. destruct (decide (n ∈ nodes g)) as [|Hn]; [done|].
  destruct Hwf as [Hnd He Hac]. split; simpl.
  - apply NoDup_app. split_and!; [done| |apply NoDup_singleton].
    intros x Hx ->%list_elem_of_singleton. exact (Hn Hx).
  - intros e Hin. destruct (He e Hin). split; apply elem_of_app; by left.
  - intros a l Hl Hw. eapply Hac; [done|]. eapply walk_subgraph; [|exact Hw]; done.
Qed.

Lemma Add_nodes g n :
  nodes (Add g n).1 = if decide (n ∈ nodes g) then nodes g else nodes g ++ [n].
Proof. unfold Add. by destruct (decide _). Qed.

Lemma Add_edges g n : edges (Add g n).1 = edges g.
Proof. unfold Add. by destruct (decide _). Qed.

Lemma AddEdge_nodes g e : nodes (AddEdge g e).1 = nodes g.
Proof. unfold AddEdge. by repeat (destruct (decide _) || destruct (reachb _ _ _)). Qed.

(** A walk in the graph extended by the edge [f -> t] either avoids the new
    edge or passes through it. *)
Lemma walk_extended g f t a l b :
  walk (mkGraph (nodes g) (edges g ++ [mkEdge f t])) a l b →
  reaches g a b ∨ (reaches g a f ∧ reaches g t b).
Proof.
  revert a. induction l as [|x l IH]; intros a; simpl.
  - intros ->. left. by exists [].
  - intros [He Hw]. unfold has_edge in He. simpl in He.
    apply elem_of_app in He as [He|He%list_elem_of_singleton].
    + destruct (IH _ Hw) as [[l' Hl']|[[l1 H1] H2]].
      * left. by exists (x :: l').
      * right. split; [|done]. by exists (x :: l1).
    + injection He as -> ->. right. split; [by exists []|].
      destruct (IH _ Hw) as [?|[_ ?]]; done.
Qed.

Lemma reaches_trans g a b c : reaches g a b → reaches g b c → reaches g a c.
Proof. intros [l1 H1] [l2 H2]. exists (l1 ++ l2). apply walk_app. eauto. Qed.

Lemma AddEdge_wf g e : wf g → wf (AddEdge g e).1.
Proof.
  intros Hwf. unfold AddEdge.
  destruct (decide (From e = To e)); [done|].
  destruct (decide (From e ∈ nodes g ∧ To e ∈ nodes g)) as [[Hf Ht]|]; [|done].
  destruct (decide (e ∈ edges g)); [done|].
  destruct (reachb g (To e) (From e)) eqn:Hr; [done|].
  assert (¬ reaches g (To e) (From e)) as Hnr.
  { intros H. apply (reachb_spec _ _ _ Hwf) in H. congruence. }
  destruct e as [f t]. simpl in *.
  split; simpl.
  - apply (wf_nodup _ Hwf).
  - intros e' [He'|He']%elem_of_app; [by apply (wf_edges _ Hwf)|].
    by apply list_elem_of_singleton in He' as ->.
  - intros a [|x l] Hl; [done|]. intros [He Hw].
    unfold has_edge in He. simpl in He.
    apply walk_extended in Hw.
    apply elem_of_app in He as [He|He%list_elem_of_singleton].
    + destruct Hw as [[l' Hl']|[Hxf Hta]].
      * apply (wf_acyclic _ Hwf a (x :: l')); [done|]. by split.
      * apply Hnr. eapply reaches_trans; [exact Hta|].
        destruct Hxf as [l1 H1]. by exists (x :: l1).
    + injection He as -> ->. destruct Hw as [?|[? _]]; done.
Qed.

Lemma Reduce_wf g : wf g → wf (Reduce g).
Proof.
  intros [Hnd He Hac].
  assert (∀ e, e ∈ edges (Reduce g) → e ∈ edges g) as Hsub.
  { intros e. unfold Reduce. simpl. by intros [_ ?]%list_elem_of_filter. }
  split; simpl.
  - done.
  - intros e Hin. by apply He, Hsub.
  - intros a l Hl Hw. eapply Hac; [done|]. eapply walk_subgraph; [|exact Hw]; done.
Qed.

(** From a node with a decidable property one reaches a node with the
    property none of whose dependencies has it. *)
Lemma exists_minimal g (P : Node → Prop) `{!∀ x, Decision (P x)} n :
  wf g → P n →
  ∃ m, P m ∧ reaches g n m ∧ ∀ d, d ∈ Dependencies g m → ¬ P d.
Proof.
  intros Hwf Hn.
  assert (∀ k, (∃ m, P m ∧ reaches g n m ∧ ∀ d, d ∈ Dependencies g m → ¬ P d)
               ∨ ∃ l m, length l = k ∧ walk g n l m ∧ P m) as Hk.
  { induction k as [|k [IH|(l & m & Hlen & Hw & Hm)]].
    - right. by exists [], n.
    - by left.
    - destruct (decide (Exists P (Dependencies g m))) as [Hex|Hnex].
      + apply Exists_exists in Hex as (d & Hd & HPd). right.
        exists (l ++ [d]), d. split_and!; [|apply walk_app|done].
        * rewrite length_app. simpl. lia.
        * exists m. split; [done|]. simpl. split; [|done].
          by apply elem_of_Dependencies.
      + left. exists m. split_and!; [done|by exists l|].
        intros d Hd HPd. apply Hnex, Exists_exists. eauto. }
  destruct (Hk (S (length (nodes g)))) as [?|(l & m & Hlen & Hw & _)]; [done|].
  apply (walk_length _ _ _ _ Hwf) in Hw. lia.
Qed.

Lemma leaf_reachable g n :
  wf g → n ∈ nodes g → ∃ s, s ∈ Leaves g ∧ reaches g n s.
Proof.
  intros Hwf Hn.
  destruct (exists_minimal g (λ _, True) n Hwf I) as (m & _ & Hr & Hmin).
  exists m. split; [|done].
  apply list_elem_of_filter. split.
  - destruct (Dependencies g m) as [|d ds] eqn:Hd; [done|].
    exfalso. apply (Hmin d); [left|done].
  - destruct Hr as [l Hw]. by eapply walk_target.
Qed.


Lemma filter_all {A} (P : A → Prop) `{!∀ x, Decision (P x)} (l : list A) :
  Forall P l → filter P l = l.
Proof.
  induction 1 as [|x l Hx _ IH]; [done|].
  rewrite filter_cons_True by done. by rewrite IH.
Qed.

Lemma candidates_all g :
  wf g →
  filter (λ n, Exists (λ s, reachb g n s = true) (Leaves g)) (nodes g)
  = nodes g.
Proof.
  intros Hwf. apply filter_all, Forall_forall. intros n Hn.
  destruct (leaf_reachable g n Hwf Hn) as (s & Hs & Hr).
  apply Exists_exists. exists s. split; [done|]. by apply reachb_spec.
Qed.

Lemma ready_exists g visited :
  wf g → (∀ x, x ∈ visited → x ∈ nodes g) →
  length visited < length (nodes g) →
  ∃ m, m ∈ nodes g ∧ ready g visited m.
Proof.
  intros Hwf Hsub Hlen.
  destruct (decide (Forall (λ x, x ∈ visited) (nodes g))) as [Hall|Hnall].
  { exfalso. rewrite Forall_forall in Hall.
    pose proof (NoDup_submseteq _ _ (wf_nodup _ Hwf) Hall) as Hs.
    apply submseteq_length in Hs. lia. }
  apply not_Forall_Exists in Hnall; [|apply _].
  apply Exists_exists in Hnall as (n & Hn & Hnv).
  destruct (exists_minimal g (λ x, x ∈ nodes g ∧ x ∉ visited) n Hwf)
    as (m & [Hm Hmv] & _ & Hmin); [done|].
  exists m. split; [done|]. split; [done|].
  apply Forall_forall. intros d Hd.
  destruct (decide (d ∈ visited)) as [|Hdv]; [done|].
  exfalso. apply (Hmin d Hd). split; [|done].
  apply elem_of_Dependencies in Hd.
  by apply (wf_edges _ Hwf) in Hd as [_ ?].
Qed.

Lemma topological_snoc g l n :
  topological g l → ready g l n → topological g (l ++ [n]).
Proof.
  intros Ht [_ Hdeps] i m Hi d Hd.
  destruct (decide (i < length l)) as [Hlt|Hge].
  - rewrite lookup_app_l in Hi by done.
    rewrite take_app_le by lia. by eapply Ht.
  - rewrite lookup_app_r in Hi by lia.
    apply list_lookup_singleton_Some in Hi as [Hi <-].
    rewrite take_app_ge by lia.
    apply elem_of_app. left.
    rewrite Forall_forall in Hdeps. by apply Hdeps.
Qed.

Lemma walk_from_spec g fuel visited :
  wf g → NoDup visited → (∀ x, x ∈ visited → x ∈ nodes g) →
  topological g visited →
  length visited + fuel = length (nodes g) →
  NoDup (walk_from fuel g (nodes g) visited) ∧
  (∀ x, x ∈ walk_from fuel g (nodes g) visited → x ∈ nodes g) ∧
  length (walk_from fuel g (nodes g) visited) = length (nodes g) ∧
  topological g (walk_from fuel g (nodes g) visited).
Proof.
  intros Hwf. revert visited.
  induction fuel as [|fuel IH]; intros visited Hnd Hsub Htop Hlen; simpl.
  { split_and!; [done|done|lia|done]. }
  destruct (ready_exists g visited Hwf Hsub) as (m & Hm & Hready); [lia|].
  destruct (list_find_elem_of (ready g visited) _ _ Hm Hready) as [[i n] Hfind].
  rewrite Hfind.
  apply list_find_Some in Hfind as (Hi & Hrn & _).
  assert (n ∈ nodes g) as Hn by (by eapply list_elem_of_lookup_2).
  apply IH.
  - apply NoDup_app. split_and!; [done| |apply NoDup_singleton].
    intros x Hx Hx'. apply list_elem_of_singleton in Hx' as ->.
    by destruct Hrn.
  - intros x [Hx|Hx]%elem_of_app; [by apply Hsub|].
    by apply list_elem_of_singleton in Hx as ->.
  - by apply topological_snoc.
  - rewrite length_app. simpl. lia.
Qed.

(** Started from the leaves, the walk visits every node of the graph
    exactly once, each after the nodes it depends on. *)
Lemma walk_order_Leaves g :
  wf g →
  walk_order g (Leaves g) ≡ₚ nodes g ∧
  NoDup (walk_order g (Leaves g)) ∧
  topological g (walk_order g (Leaves g)).
Proof.
  intros Hwf. unfold walk_order. rewrite candidates_all by done.
  destruct (walk_from_spec g (length (nodes g)) [] Hwf)
    as (Hnd & Hsub & Hlen & Htop).
  - apply NoDup_nil_2.
  - intros x Hx. by apply elem_of_nil in Hx.
  - intros i n Hi. by rewrite lookup_nil in Hi.
  - done.
  - split_and!; [|done|done].
    apply submseteq_length_Permutation; [by apply NoDup_submseteq|lia].
Qed.

End DagFacts.

(** ** References and nodes *)

Section NodeFacts.
Context {Value Comp HBody : Type}.
Context `{!flow.Component Value Comp} `{!flow.Externals Value Comp HBody}.
Import flow.

Lemma build_node_calls (l : Logger) (g : dag.Graph) (n : dag.Node)
    (st st' : list componentNode * list BuildCall) (r : option failure)
    (cn : componentNode) :
  st.1 !! n = Some cn →
  build_node l g n st = (st', r) →
  st'.2 = st.2 ∨
  ∃ bctx, st'.2 = st.2 ++
    [mkBuildCall n (reference_String (componentID cn)) bctx (block cn)].
Proof.
  intros Hn. unfold build_node. rewrite Hn.
  destruct (BuildEvalContext st.1 (dag.Dependencies g n)) as [ectx [err|]|].
  - intros [= <- <-]. by left.
  - destruct (component_BuildHCL _ _ _); intros [= <- <-]; right; eauto.
  - intros [= <- <-]. by left.
Qed.

(** C10.  A block declared without labels gives a node whose reference is
    the block kind alone; the kind path handed to the builder, all segments
    but the last, is then the empty reference, whose string form is the
    empty string. *)
Theorem newComponentNode_no_labels (blk : hcl.Block) :
  hcl.Labels blk = [] →
  Reference (@newComponentNode Comp blk) = [hcl.Type_ blk] ∧
  length (Reference (@newComponentNode Comp blk)) = 1 ∧
  componentID (@newComponentNode Comp blk) = [] ∧
  reference_String (componentID (@newComponentNode Comp blk)) = ""%string ∧
  ∀ l g n st st' r,
    st.1 !! n = Some (@newComponentNode Comp blk) →
    build_node l g n st = (st', r) →
    ∃ new, st'.2 = st.2 ++ new ∧ Forall (λ c, bc_kind c = ""%string) new.
Proof.
  intros Hl.
  assert (Hid : componentID (@newComponentNode Comp blk) = []).
  { unfold componentID, newComponentNode. simpl. by rewrite Hl. }
  repeat split.
  - unfold Reference, newComponentNode. simpl. by rewrite Hl.
  - unfold Reference, newComponentNode. simpl. by rewrite Hl.
  - done.
  - by rewrite Hid.
  - intros l g n st st' r Hn Hb.
    destruct (build_node_calls _ _ _ _ _ _ _ Hn Hb) as [Heq|[bctx Heq]].
    + exists []. rewrite app_nil_r. split; [done|constructor].
    + eexists. split; [exact Heq|].
      constructor; [|constructor]. simpl. by rewrite Hid.
Qed.

End NodeFacts.

Lemma newComponentNode_no_labels_lonely :
  hcl.Labels examples.lonely = [] ∧
  flow.Reference (Comp:=nat) (flow.newComponentNode examples.lonely)
    = ["lonely"%string] ∧
  flow.reference_String
    (flow.componentID (Comp:=nat) (flow.newComponentNode examples.lonely))
    = ""%string.
Proof.
  split; [reflexivity|].
  pose proof (newComponentNode_no_labels (Value:=nat) (Comp:=nat)
                (HBody:=list hcl.Block) examples.lonely eq_refl) as H.
  split; [exact (proj1 H)|exact (proj1 (proj2 (proj2 (proj2 H))))].
Defined.

(** ** [Load] *)

Section LoadFacts.
Context {Value Comp HBody : Type}.
Context `{!flow.Component Value Comp} `{!flow.Externals Value Comp HBody}.
Import flow.
Implicit Types (f : @Flow Comp) (st : list (@componentNode Comp)).

Lemma add_component_wf f blk :
  dag.wf (graph f) → dag.wf (graph (add_component f blk)).
Proof. intros Hwf. unfold add_component. simpl. by apply Add_wf. Qed.

Lemma foldl_add_component_wf blks f :
  dag.wf (graph f) → dag.wf (graph (foldl add_component f blks)).
Proof.
  revert f. induction blks as [|b blks IH]; intros f Hwf; simpl; [done|].
  by apply IH, add_component_wf.
Qed.

Lemma wire_traversals_wf ntab st c ts acc :
  dag.wf acc.1 → dag.wf (wire_traversals ntab st c ts acc).1.
Proof.
  revert acc. induction ts as [|t ts IH]; intros acc Hwf; simpl; [done|].
  destruct (LookupTraversal ntab st t) as [[tgt|] ds]; apply IH; simpl;
    [by apply AddEdge_wf|done].
Qed.

Lemma wire_traversals_nodes ntab st c ts acc :
  dag.nodes (wire_traversals ntab st c ts acc).1 = dag.nodes acc.1.
Proof.
  revert acc. induction ts as [|t ts IH]; intros acc; simpl; [done|].
  destruct (LookupTraversal ntab st t) as [[tgt|] ds]; rewrite IH; simpl;
    [by rewrite AddEdge_nodes|done].
Qed.

Lemma wire_nodes_wf ntab st ns acc :
  dag.wf acc.1 → dag.wf (wire_nodes ntab st ns acc).1.
Proof.
  revert acc. induction ns as [|n ns IH]; intros acc Hwf; simpl; [done|].
  by apply IH, wire_traversals_wf.
Qed.

Lemma wire_nodes_nodes ntab st ns acc :
  dag.nodes (wire_nodes ntab st ns acc).1 = dag.nodes acc.1.
Proof.
  revert acc. induction ns as [|n ns IH]; intros acc; simpl; [done|].
  by rewrite IH, wire_traversals_nodes.
Qed.

(** A successful visit makes exactly one builder call, for the visited
    node, and leaves that node initialized. *)
Lemma build_node_ok l g n s s' :
  build_node l g n s = (s', None) →
  (∃ c, s'.2 = s.2 ++ [c] ∧ bc_node c = n) ∧
  initialized s'.1 n ∧
  (∀ m, initialized s.1 m → initialized s'.1 m).
Proof.
  unfold build_node. destruct (s.1 !! n) as [cn|] eqn:Hn; [|done].
  destruct (BuildEvalContext s.1 (dag.Dependencies g n))
    as [ectx [err|]|]; [done| |done].
  destruct (component_BuildHCL _ _ _) as [rc|err]; [|done].
  intros [= <-]. simpl.
  pose proof (lookup_lt_Some _ _ _ Hn) as Hlt.
  split_and!.
  - eexists. split; [done|done].
  - exists (Set_ cn rc), rc. split; [|done]. by apply list_lookup_insert_eq.
  - intros m (cm & c & Hm & Hc). destruct (decide (m = n)) as [->|Hne].
    + exists (Set_ cn rc), rc. split; [|done]. by apply list_lookup_insert_eq.
    + exists cm, c. split; [|done]. by rewrite list_lookup_insert_ne.
Qed.

Lemma walk_visit_build l g order s s' :
  dag.walk_visit (build_node l g) order s = (s', None) →
  bc_node <$> s'.2 = (bc_node <$> s.2) ++ order ∧
  (∀ n, n ∈ order → initialized s'.1 n) ∧
  (∀ m, initialized s.1 m → initialized s'.1 m).
Proof.
  revert s. induction order as [|n order IH]; intros s; simpl.
  - intros [= <-]. rewrite app_nil_r. split_and!; [done| |done].
    intros n Hn. by apply elem_of_nil in Hn.
  - destruct (build_node l g n s) as [s1 [e|]] eqn:Hb; [done|].
    intros Hw. apply build_node_ok in Hb as ((c & Hc & Hcn) & Hin & Hpres).
    apply IH in Hw as (Hcalls & Hord & Hpres').
    split_and!.
    + rewrite Hcalls, Hc, fmap_app. simpl. rewrite Hcn.
      by rewrite <- app_assoc.
    + intros m [->|Hm]%elem_of_cons; [by apply Hpres'|by apply Hord].
    + intros m Hm. by apply Hpres', Hpres.
Qed.

(** A [Load] that returns [nil] went through every checkpoint: it ends
    with a well-formed graph and a walk from its leaves on which every call
    of the builder succeeded. *)
Lemma Load_nil_inv f :
  dag.wf (graph f) →
  load_ret (Load f) = RetNil →
  ∃ l st0,
    dag.wf (graph (load_flow (Load f))) ∧
    dag.walk_visit (build_node l (graph (load_flow (Load f))))
      (dag.walk_order (graph (load_flow (Load f)))
                      (dag.Leaves (graph (load_flow (Load f)))))
      (st0, [])
    = ((store (load_flow (Load f)), load_builds (Load f)), None).
Proof.
  intros Hwf. unfold Load.
  destruct (os_ReadFile (configFile f)) as [bb|err]; [|done].
  destruct (hclsyntax_ParseConfig bb (configFile f)) as [file diags].
  destruct (hcl.HasErrors diags); [done|].
  destruct (gohcl_DecodeBody file) as [root decodeDiags].
  destruct (hcl.HasErrors (hcl.Extend diags decodeDiags)); [done|].
  destruct (body_Content (Remain root)) as [content remainDiags].
  destruct (hcl.HasErrors _); [done|].
  set (f1 := foldl add_component f content).
  destruct (wire_nodes _ _ _ _) as [g2 diags2] eqn:Hwire.
  destruct (hcl.HasErrors diags2); [done|].
  unfold dag.WalkTopological.
  destruct (dag.walk_visit _ _ _) as [[store' calls] err] eqn:Hwalk.
  simpl. intros Hret. destruct err as [[e|]|]; [done|done|].
  exists (log f1), (store f1). split; [|done].
  apply Reduce_wf.
  replace g2 with (wire_nodes (nt f1) (store f1)
    (dag.Nodes (graph f1)) (graph f1, hcl.Extend
      (hcl.Extend diags decodeDiags) remainDiags)).1 by (by rewrite Hwire).
  apply wire_nodes_wf. simpl. by apply foldl_add_component_wf.
Qed.

(** C6.  When [Load] returns [nil], the builder has been invoked exactly
    once for every node of the graph, in the order of the topological walk
    from the leaves, and every node of the graph holds a component. *)
Theorem Load_builds_every_node_once f :
  dag.wf (graph f) →
  load_ret (Load f) = RetNil →
  bc_node <$> load_builds (Load f) ≡ₚ dag.Nodes (graph (load_flow (Load f))) ∧
  NoDup (bc_node <$> load_builds (Load f)) ∧
  dag.topological (graph (load_flow (Load f)))
                  (bc_node <$> load_builds (Load f)) ∧
  ∀ n, n ∈ dag.Nodes (graph (load_flow (Load f))) →
       ∃ cn c, store (load_flow (Load f)) !! n = Some cn ∧ raw cn = Some c.
Proof.
  intros Hwf Hret.
  destruct (Load_nil_inv f Hwf Hret) as (l & st0 & Hwf' & Hwalk).
  destruct (walk_order_Leaves _ Hwf') as (Hperm & Hnd & Htop).
  apply walk_visit_build in Hwalk as (Hcalls & Hinit & _).
  simpl in Hcalls, Hinit. rewrite Hcalls.
  split_and!; [done|done|done|].
  intros n Hn. apply Hinit. unfold dag.Nodes in Hn. by rewrite Hperm.
Qed.

Lemma existsb_HasErrors_app (ds1 ds2 : hcl.Diagnostics) :
  hcl.HasErrors (hcl.Extend ds1 ds2) = hcl.HasErrors ds1 || hcl.HasErrors ds2.
Proof. unfold hcl.HasErrors, hcl.Extend. apply existsb_app. Qed.

(** C4.  If parsing the file or decoding the top-level block gives an error
    diagnostic, [Load] returns the diagnostics gathered so far and nothing
    else has happened: the runtime, with its graph, nametable and store, is
    the one [Load] was called on, and the builder was not called. *)
Theorem Load_parse_decode_errors f bb file diags root decodeDiags :
  os_ReadFile (configFile f) = inl bb →
  hclsyntax_ParseConfig bb (configFile f) = (file, diags) →
  gohcl_DecodeBody file = (root, decodeDiags) →
  hcl.HasErrors diags = true ∨ hcl.HasErrors decodeDiags = true →
  load_ret (Load f)
  = RetErr (ErrDiagnostics (if hcl.HasErrors diags then diags
                            else hcl.Extend diags decodeDiags)) ∧
  load_flow (Load f) = f ∧
  graph (load_flow (Load f)) = graph f ∧
  nt (load_flow (Load f)) = nt f ∧
  load_builds (Load f) = [].
Proof.
  intros Hread Hparse Hdecode Herr. unfold Load.
  rewrite Hread, Hparse.
  destruct (hcl.HasErrors diags) eqn:Hd; [done|].
  rewrite Hdecode, existsb_HasErrors_app, Hd.
  destruct Herr as [?| ->]; done.
Qed.

Lemma filter_none {A} (P : A → Prop) `{!∀ x, Decision (P x)} (l : list A) :
  Forall (λ x, ¬ P x) l → filter P l = [].
Proof.
  induction 1 as [|x l Hx _ IH]; [done|].
  by rewrite filter_cons_False.
Qed.

Lemma wire_traversals_app ntab st c ts1 ts2 acc :
  wire_traversals ntab st c (ts1 ++ ts2) acc
  = wire_traversals ntab st c ts2 (wire_traversals ntab st c ts1 acc).
Proof.
  revert acc. induction ts1 as [|t ts1 IH]; intros acc; simpl; [done|].
  destruct (LookupTraversal ntab st t) as [[tgt|] ds]; apply IH.
Qed.

(** C8.  A traversal of which no registered reference is a prefix is looked
    up to [nil] without a diagnostic, and the edge pass is the same with
    and without it: no edge is added for it, no diagnostic is recorded for
    it, and the traversals after it are processed as they would be. *)
Theorem unresolved_traversal_ignored ntab st component t ts1 ts2 acc :
  Forall (λ e, ¬ e.1 `prefix_of` t) (entries ntab) →
  LookupTraversal ntab st t = (None, []) ∧
  wire_traversals ntab st component (ts1 ++ t :: ts2) acc
  = wire_traversals ntab st component (ts1 ++ ts2) acc.
Proof.
  intros Hno.
  assert (LookupTraversal ntab st t = (None, [])) as Hlook.
  { unfold LookupTraversal. by rewrite filter_none. }
  split; [done|].
  rewrite !wire_traversals_app. simpl. rewrite Hlook.
  destruct (wire_traversals ntab st component ts1 acc) as [g ds]. simpl.
  unfold hcl.Extend. by rewrite app_nil_r.
Qed.

(** A successful [Load] leaves a runtime that can be run. *)
Lemma Load_run_ready f :
  dag.wf (graph f) → load_ret (Load f) = RetNil →
  run_ready (load_flow (Load f)).
Proof.
  intros Hwf Hret.
  destruct (Load_nil_inv f Hwf Hret) as (l & st0 & Hwf' & Hwalk).
  destruct (walk_order_Leaves _ Hwf') as (Hperm & _ & _).
  apply walk_visit_build in Hwalk as (_ & Hinit & _). simpl in Hinit.
  split; [by apply dag.wf_edges|].
  intros n Hn. apply Hinit. by rewrite Hperm.
Qed.

End LoadFacts.

(** ** [Run] *)

Section RunFacts.
Context {Value Comp HBody : Type}.
Context `{!flow.Component Value Comp} `{!flow.Externals Value Comp HBody}.
Import flow.
Implicit Types (f : @Flow Comp) (st : list (@componentNode Comp)).
Implicit Types (rs : @RunState Value Comp) (tr : list (@event Value Comp)).

Lemma initialized_insert st n cn c m :
  st !! n = Some cn → initialized st m → initialized (<[n := Set_ cn c]> st) m.
Proof.
  intros Hn (cm & c' & Hm & Hc). destruct (decide (m = n)) as [->|Hne].
  - exists (Set_ cn c), c. split; [|done].
    apply list_lookup_insert_eq. by eapply lookup_lt_Some.
  - exists cm, c'. split; [|done]. by rewrite list_lookup_insert_ne.
Qed.

Lemma update_calls_app tr1 tr2 :
  update_calls (tr1 ++ tr2) = update_calls tr1 ++ update_calls tr2.
Proof. apply omap_app. Qed.

Lemma logged_errors_app tr1 tr2 :
  logged_errors (tr1 ++ tr2) = logged_errors tr1 ++ logged_errors tr2.
Proof. apply omap_app. Qed.

(** With every dependency initialized, the evaluation context exists and
    binds the dependencies to their current states. *)
Lemma BuildEvalContext_ok st deps :
  deps ≠ [] → (∀ d, d ∈ deps → initialized st d) →
  ∃ vars, BuildEvalContext st deps = EctxRet (Some (mkEvalContext vars [])) None ∧
    Forall2 (λ dep b, ∃ cn c, st !! dep = Some cn ∧ raw cn = Some c ∧
                              b = (ref cn, CurrentState c)) deps vars.
Proof.
  intros Hne Hinit.
  assert (is_Some (mapM (binding st) deps)) as [vars Hvars].
  { apply mapM_is_Some_2, Forall_forall. intros d Hd.
    destruct (Hinit d Hd) as (cn & c & Hcn & Hc).
    unfold binding. simpl. rewrite Hcn. simpl. rewrite Hc. by eexists. }
  exists vars. split.
  - unfold BuildEvalContext. destruct deps; [done|]. by rewrite Hvars.
  - apply mapM_Some_1 in Hvars.
    eapply Forall2_impl; [exact Hvars|]. intros d b Hb. simpl in Hb.
    unfold binding in Hb.
    destruct (st !! d) as [cn|]; [|done]. simpl in Hb.
    destruct (raw cn) as [c|] eqn:Hc; [|done]. simpl in Hb.
    injection Hb as <-. by exists cn, c.
Qed.

(** The loop over the dependants: with an initialized graph every
    dependant is updated, in order, whatever the earlier updates returned;
    every failed update is logged. *)
Lemma update_dependants_spec g ds st tr :
  (∀ e, e ∈ dag.edges g → dag.From e ∈ dag.nodes g ∧ dag.To e ∈ dag.nodes g) →
  (∀ n, n ∈ dag.nodes g → initialized st n) →
  (∀ d, d ∈ ds → d ∈ dag.nodes g ∧ dag.Dependencies g d ≠ []) →
  ∃ st' new,
    update_dependants g ds st tr = Some (st', tr ++ new) ∧
    (update_calls new).*1.*1 = ds ∧
    Forall (call_ok g) (update_calls new) ∧
    stores_follow st (update_calls new) ∧
    logged_errors new = omap update_error (update_calls new) ∧
    (∀ n, initialized st n → initialized st' n).
Proof.
  intros Hedges. revert st tr.
  induction ds as [|d ds IH]; intros st tr Hinit Hds; simpl.
  { exists st, []. rewrite app_nil_r. by split_and!. }
  destruct (Hds d) as [Hd Hdeps]; [left|].
  destruct (Hinit d Hd) as (cn & c & Hcn & Hc). rewrite Hcn.
  destruct (BuildEvalContext_ok st (dag.Dependencies g d) Hdeps)
    as (vars & -> & Hvars).
  { intros x Hx. apply Hinit. apply elem_of_Dependencies in Hx.
    by apply Hedges in Hx as [_ ?]. }
  rewrite Hc.
  destruct (Update c _ (block cn)) as [c' r] eqn:Hupd.
  set (ectx := with_functions (Some (mkEvalContext vars []))) in *.
  set (st1 := <[d := Set_ cn c']> st).
  assert (∀ n, n ∈ dag.nodes g → initialized st1 n) as Hinit1.
  { intros n Hn. by apply initialized_insert, Hinit. }
  assert (∀ x, x ∈ ds → x ∈ dag.nodes g ∧ dag.Dependencies g x ≠ []) as Hds1.
  { intros x Hx. apply Hds. by right. }
  assert (call_ok g (d, ectx, st)) as Hok.
  { eexists. split; [done|]. split; [done|]. exact Hvars. }
  assert (∃ cn0 c0, st !! d = Some cn0 ∧ raw cn0 = Some c0 ∧
            <[d := Set_ cn0 (Update c0 ectx (block cn0)).1]> st = st1) as Hfol.
  { exists cn, c. split_and!; [done|done|]. by rewrite Hupd. }
  destruct r as [err|].
  - destruct (IH st1 ((tr ++ [EvUpdate d ectx st]) ++
        [EvLog (LogError "failed to update node" (Name cn) err)]) Hinit1 Hds1)
      as (st' & new & Heq & Hnodes & Hcalls & Hst & Hlog & Hpres).
    exists st', ([EvUpdate d ectx st;
                  EvLog (LogError "failed to update node" (Name cn) err)] ++ new).
    split_and!.
    + rewrite Heq. do 2 f_equal. by rewrite <- !app_assoc.
    + rewrite update_calls_app. simpl. f_equal. exact Hnodes.
    + rewrite update_calls_app. simpl. by constructor.
    + rewrite update_calls_app. simpl. split; [done|].
      destruct Hfol as (cn0 & c0 & ? & ? & Hst1). exists cn0, c0.
      split_and!; [done|done|]. by rewrite Hst1.
    + rewrite logged_errors_app, update_calls_app. simpl.
      rewrite Hcn. simpl. rewrite Hc. simpl. rewrite Hupd. simpl.
      by rewrite Hlog.
    + intros n Hn. by apply Hpres, initialized_insert.
  - destruct (IH st1 (tr ++ [EvUpdate d ectx st]) Hinit1 Hds1)
      as (st' & new & Heq & Hnodes & Hcalls & Hst & Hlog & Hpres).
    exists st', ([EvUpdate d ectx st] ++ new).
    split_and!.
    + rewrite Heq. do 2 f_equal. by rewrite <- !app_assoc.
    + rewrite update_calls_app. simpl. f_equal. exact Hnodes.
    + rewrite update_calls_app. simpl. by constructor.
    + rewrite update_calls_app. simpl. split; [done|].
      destruct Hfol as (cn0 & c0 & ? & ? & Hst1). exists cn0, c0.
      split_and!; [done|done|]. by rewrite Hst1.
    + rewrite logged_errors_app, update_calls_app. simpl.
      rewrite Hcn. simpl. rewrite Hc. simpl. rewrite Hupd. simpl.
      by rewrite Hlog.
    + intros n Hn. by apply Hpres, initialized_insert.
Qed.


(** The callback of [Range] on a key: it does not panic on a runtime that
    is ready, touches only the store and the trace, and updates exactly the
    dependants of the key. *)
Lemma handle_updated_spec rs key :
  run_ready (rs_flow rs) → key ∈ dag.nodes (graph (rs_flow rs)) →
  ∃ st' new,
    handle_updated key rs
      = Some (emit (set_flow rs (set_store (rs_flow rs) st')) new) ∧
    (update_calls new).*1.*1 = dag.Dependants (graph (rs_flow rs)) key ∧
    Forall (call_ok (graph (rs_flow rs))) (update_calls new) ∧
    stores_follow (store (rs_flow rs)) (update_calls new) ∧
    logged_errors new = omap update_error (update_calls new) ∧
    (∀ n, initialized (store (rs_flow rs)) n → initialized st' n).
Proof.
  intros [Hedges Hinit] Hkey.
  destruct (Hinit key Hkey) as (cn & c & Hcn & _).
  set (g := graph (rs_flow rs)) in *.
  destruct (update_dependants_spec g (dag.Dependants g key)
              (store (rs_flow rs))
              [EvLog (LogDebug "handling node with updated state" (Name cn));
               EvLock] Hedges Hinit)
    as (st' & new & Heq & Hnodes & Hcalls & Hst & Hlog & Hpres).
  { intros d Hd. apply elem_of_Dependants in Hd. split.
    - by apply Hedges in Hd as [? _].
    - apply elem_of_Dependencies in Hd. intros Hnil.
      rewrite Hnil in Hd. by apply elem_of_nil in Hd. }
  exists st', (([EvLog (LogDebug "handling node with updated state" (Name cn));
                 EvLock] ++ new) ++ [EvUnlock]).
  split_and!; [|by rewrite !update_calls_app, app_nil_r..| |done].
  - unfold handle_updated. rewrite Hcn. simpl. fold g. by rewrite Heq.
  - rewrite !logged_errors_app, !update_calls_app. simpl.
    by rewrite !app_nil_r.
Qed.

Lemma start_workers_ok ns rs :
  (∀ n, n ∈ ns → initialized (store (rs_flow rs)) n) →
  start_workers ns rs
  = (emit (set_started rs (rs_started rs ++ ns)) (EvGo <$> ns), RetNil).
Proof.
  revert rs. induction ns as [|n ns IH]; intros rs Hinit; simpl.
  - destruct rs. unfold emit, set_started. simpl. by rewrite !app_nil_r.
  - destruct (Hinit n) as (cn & c & -> & ->); [left|].
    rewrite IH.
    + destruct rs. unfold emit, set_started. simpl.
      by rewrite <- !app_assoc.
    + intros m Hm. apply Hinit. by right.
Qed.

(** The start-up loop stops at the first node that is not initialized: the
    workers of the nodes before it have been started by then. *)
Lemma start_workers_stops ns1 n ns2 rs cn :
  (∀ m, m ∈ ns1 → initialized (store (rs_flow rs)) m) →
  store (rs_flow rs) !! n = Some cn → raw cn = None →
  start_workers (ns1 ++ n :: ns2) rs
  = (emit (set_started rs (rs_started rs ++ ns1)) (EvGo <$> ns1),
     RetErr (ErrNotInitialized (Name cn))).
Proof.
  revert rs. induction ns1 as [|m ns1 IH]; intros rs Hinit Hn Hraw; simpl.
  - rewrite Hn, Hraw. destruct rs. unfold emit, set_started. simpl.
    by rewrite !app_nil_r.
  - destruct (Hinit m) as (cm & c & -> & ->); [left|].
    rewrite (IH (emit (set_started rs (rs_started rs ++ [m])) [EvGo m]));
      [|intros x Hx; apply Hinit; by right|done|done].
    destruct rs. unfold emit, set_started. simpl.
    by rewrite <- !app_assoc.
Qed.

(** On a runtime that is ready [Run] starts one worker per node, in the
    order of [Nodes()], between taking and releasing the lock. *)
Lemma Run_start_ready f :
  run_ready f →
  Run_start (Value:=Value) f
  = mkRunState f false (dag.Nodes (graph f)) [] [] [] 0 false AIdle
      ([EvLock] ++ (EvGo <$> dag.Nodes (graph f)) ++ [EvUnlock]).
Proof.
  intros [_ Hinit]. unfold Run_start. rewrite start_workers_ok; [done|].
  intros n Hn. by apply Hinit.
Qed.

Lemma Run_start_inv f :
  run_ready f → run_inv f (Run_start (Value:=Value) f).
Proof.
  intros Hready. rewrite Run_start_ready by done.
  split; simpl; try done.
  - intros n Hn. by apply elem_of_nil in Hn.
  - lia.
  - intros n Hn. by apply elem_of_nil in Hn.
Qed.

Lemma step_inv f rs l rs' :
  run_inv f rs → step rs l = Some rs' → run_inv f rs'.
Proof.
  intros [Hg Hready Hstarted Hupd Hunl Hcap Harb Hcov].
  pose proof Hready as [Hedges Hinit].
  unfold arbiter_ok in Harb.
  destruct l as [n|n|n c|n err| | |key| | | |]; simpl.
  - (* the callback stores the node *)
    destruct (decide (running rs n)) as [[Hn _]|]; [|done]. intros [= <-].
    split; simpl; try done.
    + intros m Hm. destruct (decide (n ∈ rs_updated rs)); [by apply Hupd|].
      apply elem_of_app in Hm as [Hm|Hm]; [by apply Hupd|].
      apply list_elem_of_singleton in Hm as ->. by rewrite <- Hstarted.
    + intros m _. right; left. by intros [_ ?]%app_eq_nil.
  - (* the callback sends, or drops, the token *)
    destruct (decide (n ∈ rs_notifying rs)); [|done]. intros [= <-].
    unfold notify_send. destruct (decide (rs_refreshCh rs < 1)).
    + split; simpl; try done; try lia. intros m _. left. simpl. lia.
    + split; simpl; try done; try lia. intros m _. left. simpl. lia.
  - (* a component changes its state *)
    destruct (decide (running rs n)); [|done].
    destruct (store (rs_flow rs) !! n) as [cn|] eqn:Hcn; [|done].
    intros [= <-]. split; simpl; try done.
    split; simpl; [done|]. intros m Hm. by apply initialized_insert, Hinit.
  - (* a worker exits *)
    destruct (decide (running rs n)); [|done]. intros [= <-].
    unfold worker_exit. destruct err; split; simpl; done.
  - (* cancellation *)
    intros [= <-]. split; simpl; try done.
    unfold arbiter_ok. simpl. destruct (rs_arbiter rs); try done; by destruct Harb.
  - (* the arbiter receives the token *)
    destruct (rs_arbiter rs) eqn:Ha; try done.
    destruct (decide (0 < rs_refreshCh rs)); [|done]. intros [= <-].
    split; simpl; try done; try lia. intros m Hm. right; right. simpl.
    split; [done|]. intros H'. by apply elem_of_nil in H'.
  - (* the callback of Range on a key *)
    destruct (rs_arbiter rs) as [|snap vis| | | |] eqn:Ha; try done.
    destruct (decide _) as [(Hkey & Hvis & _)|]; [|done].
    destruct (handle_updated_spec rs key Hready) as
      (st' & new & -> & _ & _ & _ & _ & Hpres).
    { rewrite Hg. by apply Hupd. }
    intros [= <-]. split; simpl; try done.
    + split; simpl; [done|]. intros m Hm. by apply Hpres, Hinit.
    + intros m Hm. destruct (Hcov m Hm) as [?|[?|Hw]]; [by left|by right; left|].
      right; right. rewrite Ha in Hw. simpl in *. by right.
  - (* the deferred Delete *)
    destruct (rs_arbiter rs) as [| |key snap vis| | |] eqn:Ha; try done.
    intros [= <-]. split; simpl; try done.
    + intros m [_ Hm]%list_elem_of_filter. by apply Hupd.
    + intros m [Hne Hm]%list_elem_of_filter.
      destruct (Hcov m Hm) as [?|[?|Hw]]; [by left|by right; left|].
      right; right. rewrite Ha in Hw. simpl in *.
      destruct Hw as [?|[Hs Hv]]; [done|]. split.
      * by apply list_elem_of_filter.
      * intros [?|?]%elem_of_cons; done.
  - (* Range returns *)
    destruct (rs_arbiter rs) as [|snap vis| | | |] eqn:Ha; try done.
    destruct (decide (snap ⊆ vis)) as [Hsub|]; [|done]. intros [= <-].
    split; simpl; try done.
    intros m Hm. destruct (Hcov m Hm) as [?|[?|Hw]]; [by left|by right; left|].
    rewrite Ha in Hw. simpl in Hw. destruct Hw as [Hs Hv].
    exfalso. by apply Hv, Hsub.
  - (* the context is done *)
    destruct (rs_arbiter rs) eqn:Ha; try done.
    destruct (rs_cancelled rs) eqn:Hc; [|done]. intros [= <-].
    split; simpl; try done.
    intros m Hm. destruct (Hcov m Hm) as [?|[?|Hw]]; [by left|by right; left|].
    by rewrite Ha in Hw.
  - (* Run returns *)
    destruct (rs_arbiter rs) as [| | |r| |] eqn:Ha; try done.
    destruct (decide _); [|done]. intros [= <-].
    split; simpl; try done.
    intros m Hm. destruct (Hcov m Hm) as [?|[?|Hw]]; [by left|by right; left|].
    by rewrite Ha in Hw.
Qed.

Lemma exec_inv f ls rs rs' :
  run_inv f rs → exec rs ls = Some rs' → run_inv f rs'.
Proof.
  revert rs. induction ls as [|l ls IH]; intros rs Hinv; simpl.
  - by intros [= <-].
  - destruct (step rs l) as [rs1|] eqn:Hstep; [|done]. simpl.
    apply IH. by eapply step_inv.
Qed.


Lemma run_readyb_correct f : run_readyb f = true → run_ready f.
Proof.
  unfold run_readyb. intros [He Hn]%andb_true_iff. split.
  - intros e Hin. rewrite forallb_forall in He.
    apply list_elem_of_In, He in Hin. by apply bool_decide_eq_true in Hin.
  - intros n Hin. rewrite forallb_forall in Hn.
    apply list_elem_of_In, Hn in Hin.
    destruct (store f !! n) as [cn|] eqn:Hcn; [|done].
    destruct (raw cn) as [c|] eqn:Hc; [|done]. by exists cn, c.
Qed.

(** C2.  In every run, when the arbiter handles a node taken from the
    updated set, [Update] is invoked on the direct dependants of that node
    and on no other node: on each node with an edge to it, in the order of
    [Dependants].  The context of each call binds the direct dependencies
    of the updated node to their states in the store at that moment, the
    store left by the calls before. *)
Theorem refresh_updates_direct_dependants f ls rs key rs' :
  run_ready f →
  exec (Run_start (Value:=Value) f) ls = Some rs →
  step rs (LVisit key) = Some rs' →
  ∃ calls,
    update_calls (rs_trace rs') = update_calls (rs_trace rs) ++ calls ∧
    calls.*1.*1 = dag.Dependants (graph f) key ∧
    (∀ d, d ∈ calls.*1.*1 ↔ dag.has_edge (graph f) d key) ∧
    Forall (call_ok (graph f)) calls ∧
    stores_follow (store (rs_flow rs)) calls.
Proof.
  intros Hready Hexec Hstep.
  pose proof (exec_inv f ls _ rs (Run_start_inv f Hready) Hexec) as Hinv.
  destruct Hinv as [Hg Hrs _ Hupd _ _ _ _].
  simpl in Hstep.
  destruct (rs_arbiter rs) as [|snap vis| | | |]; try done.
  destruct (decide _) as [(Hkey & _ & _)|]; [|done].
  destruct (handle_updated_spec rs key Hrs) as
    (st' & new & Heq & Hnodes & Hcalls & Hst & _ & _).
  { rewrite Hg. by apply Hupd. }
  rewrite Heq in Hstep. injection Hstep as <-.
  rewrite Hg in *.
  exists (update_calls new). simpl. split_and!; [|done| |done|done].
  - by rewrite update_calls_app.
  - intros d. rewrite Hnodes. apply elem_of_Dependants.
Qed.

(** C5.  In every run on a ready runtime the arbiter neither panics nor
    leaves its loop except through [ctx.Done()], returning [nil].  A worker
    whose component returns an error only adds an entry to the log.  When
    the arbiter handles a node, every dependant is updated whatever the
    updates return, each failed update is logged, and the arbiter goes on
    to the deferred [Delete]. *)
Theorem runtime_errors_logged_not_propagated f ls rs :
  run_ready f →
  exec (Run_start (Value:=Value) f) ls = Some rs →
  (rs_arbiter rs ≠ APanicked ∧
   ∀ r, rs_arbiter rs = AWaiting r ∨ rs_arbiter rs = AReturned r →
        r = RetNil ∧ rs_cancelled rs = true) ∧
  (∀ n e, running rs n →
     ∃ rs', step rs (LExit n (Some e)) = Some rs' ∧
       rs_arbiter rs' = rs_arbiter rs ∧
       rs_flow rs' = rs_flow rs ∧
       rs_started rs' = rs_started rs ∧
       rs_exited rs' = rs_exited rs ++ [n] ∧
       logged_errors (rs_trace rs')
       = logged_errors (rs_trace rs) ++
         [("node exited with error"%string,
           from_option Name ""%string (store (rs_flow rs) !! n), e)]) ∧
  (∀ key rs', step rs (LVisit key) = Some rs' →
     ∃ snap vis calls,
       rs_arbiter rs' = AHandled key snap vis ∧
       update_calls (rs_trace rs') = update_calls (rs_trace rs) ++ calls ∧
       calls.*1.*1 = dag.Dependants (graph f) key ∧
       logged_errors (rs_trace rs')
       = logged_errors (rs_trace rs) ++ omap update_error calls ∧
       is_Some (step rs' LDelete)).
Proof.
  intros Hready Hexec.
  pose proof (exec_inv f ls _ rs (Run_start_inv f Hready) Hexec) as Hinv.
  destruct Hinv as [Hg Hrs _ Hupd _ _ Harb _].
  unfold arbiter_ok in Harb. split_and!.
  - by destruct (rs_arbiter rs).
  - intros r [Hr|Hr]; by rewrite Hr in Harb.
  - intros n e Hrun. eexists. simpl.
    destruct (decide (running rs n)); [|done].
    split_and!; [done..|]. simpl. by rewrite logged_errors_app.
  - intros key rs' Hstep. simpl in Hstep.
    destruct (rs_arbiter rs) as [|snap vis| | | |]; try done.
    destruct (decide _) as [(Hkey & _ & _)|]; [|done].
    destruct (handle_updated_spec rs key Hrs) as
      (st' & new & Heq & Hnodes & _ & _ & Hlog & _).
    { rewrite Hg. by apply Hupd. }
    rewrite Heq in Hstep. injection Hstep as <-. rewrite Hg in *.
    exists snap, vis, (update_calls new). simpl. split_and!; [done| |done| |done].
    + by rewrite update_calls_app.
    + by rewrite logged_errors_app, Hlog.
Qed.

(** What holds of the notification path in every run: the buffer of the
    refresh channel holds at most one token.  The callback stores the node
    and then sends without blocking: both statements can always be taken,
    also when the buffer is full, where a plain send would block.  After
    the send a token is pending and the node is still in the updated set.
    The arbiter that receives a token ranges over everything stored by
    then, and its [Range] cannot end before these nodes were handled.
    Every node of the updated set has a token, a send or the rest of the
    current [Range] before it; the node that the [Range] is handling
    counts as such, although the deferred [Delete] then removes it with
    whatever was stored for it in between. *)
Theorem notify_never_blocks_token_covers f ls rs :
  run_ready f →
  exec (Run_start (Value:=Value) f) ls = Some rs →
  rs_refreshCh rs ≤ 1 ∧
  covered rs ∧
  (∀ n, running rs n →
     ∃ rs1 rs2,
       step rs (LNotifyStore n) = Some rs1 ∧
       n ∈ rs_updated rs1 ∧
       rs_refreshCh rs1 = rs_refreshCh rs ∧
       step rs1 (LNotifySend n) = Some rs2 ∧
       rs_refreshCh rs2 = 1 ∧
       n ∈ rs_updated rs2 ∧
       (∀ m, m ∈ rs_updated rs → m ∈ rs_updated rs2)) ∧
  (∀ n, n ∈ rs_notifying rs →
     ∃ rs2, step rs (LNotifySend n) = Some rs2 ∧
       rs_refreshCh rs2 = 1 ∧
       rs_updated rs2 = rs_updated rs ∧
       (rs_refreshCh rs = 1 → blocking_send rs = None)) ∧
  (∀ rs', step rs LRecv = Some rs' →
     rs_arbiter rs' = ARange (rs_updated rs) [] ∧ rs_refreshCh rs' = 0) ∧
  (∀ snap vis, rs_arbiter rs = ARange snap vis →
     is_Some (step rs LRangeEnd) → ∀ m, m ∈ snap → m ∈ vis).
Proof.
  intros Hready Hexec.
  pose proof (exec_inv f ls _ rs (Run_start_inv f Hready) Hexec) as Hinv.
  destruct Hinv as [_ _ _ _ _ Hcap _ Hcov].
  split_and!; [done|done| | | |].
  - intros n Hrun.
    assert (n ∈ rs_updated (notify_store n rs)) as Hin.
    { unfold notify_store. simpl. destruct (decide (n ∈ rs_updated rs)); [done|].
      apply elem_of_app. right. left. }
    exists (notify_store n rs), (notify_send n (notify_store n rs)).
    simpl. destruct (decide (running rs n)); [|done].
    destruct (decide (n ∈ rs_notifying rs ++ [n])) as [|Hn].
    2:{ exfalso. apply Hn, elem_of_app. right. left. }
    split_and!; [done|done|done|done| | |].
    + unfold notify_send. simpl. destruct (decide (rs_refreshCh rs < 1)); simpl; lia.
    + unfold notify_send. by destruct (decide _).
    + intros m Hm. unfold notify_send.
      assert (m ∈ rs_updated (notify_store n rs)).
      { unfold notify_store. simpl. destruct (decide (n ∈ rs_updated rs)); [done|].
        apply elem_of_app. by left. }
      by destruct (decide _).
  - intros n Hn. exists (notify_send n rs). simpl.
    destruct (decide (n ∈ rs_notifying rs)); [|done].
    unfold notify_send, blocking_send.
    destruct (decide (rs_refreshCh rs < 1)); simpl; split_and!; try done; lia.
  - intros rs' Hstep. simpl in Hstep.
    destruct (rs_arbiter rs); try done.
    destruct (decide (0 < rs_refreshCh rs)); [|done].
    injection Hstep as <-. simpl. split; [done|lia].
  - intros snap vis Ha [rs' Hstep] m Hm. simpl in Hstep. rewrite Ha in Hstep.
    destruct (decide (snap ⊆ vis)) as [Hsub|]; [|done]. by apply Hsub.
Qed.

End RunFacts.

(** ** The [convert] pipeline *)

Section ConvertFacts.
Context `{!flowmode.PFlag} `{!flowmode.ConvertEnv}.
Import flowmode.





(** C9.  The code raises a panic on an argument of one byte, where the
    described result is that argument itself; the same happens at the third
    argument when it carries a value. *)
Theorem parseExtraArgs_panics :
  parseExtraArgs "a" = ParsePanic ∧
  extra_args_expected "a" = ["a"%string] ∧
  parseExtraArgs "--x --y --z=1" = ParsePanic ∧
  extra_args_expected "--x --y --z=1" = ["--x"; "--y"; "--z"; "1"]%string.
Proof. repeat split; reflexivity. Qed.

Lemma parseExtraArgs_empty : parseExtraArgs "" = ParseRet [] None.
Proof. reflexivity. Qed.

End ConvertFacts.



(** ** More on the [convert] sub-command *)

Section ConvertMore.
Context `{!flowmode.PFlag} `{!flowmode.ConvertEnv} `{!flowmode.FileEnv}.
Import flowmode.

(** X12.  When [convert] returns [nil], the input was read, the extra
    arguments were parsed, no critical diagnostic was found and no error
    diagnostic unless errors are bypassed; the effects are the report, if a
    report path is set, followed by one write of exactly the converted
    bytes, to standard output or to the created output file. *)
Theorem convert_nil (r : string + string) (fc : flowConvert)
    (effs : list effect) :
  convert r fc = ConvRet None effs →
  ∃ inputBytes ea riverBytes diags,
    r = inl inputBytes ∧
    parseExtraArgs (extraArgs fc) = ParseRet ea None ∧
    converter_Convert inputBytes (sourceFormat fc) ea = (riverBytes, diags) ∧
    hasErrorLevel diags SeverityLevelCritical = false ∧
    (bypassErrors fc = true ∨ hasErrorLevel diags SeverityLevelError = false) ∧
    effs =
      (if decide (report fc = ""%string) then []
       else [EffCreate (report fc); EffReport (report fc) diags]) ++
      (if decide (output fc = ""%string) then [EffCopy Stdout riverBytes]
       else [EffCreate (output fc); EffCopy (ToFile (output fc)) riverBytes]).
Proof.
  unfold convert. destruct r as [inputBytes|err]; [|done].
  destruct (parseExtraArgs (extraArgs fc)) as [ea [err|]| |code] eqn:Hparse;
    [done| |done|done].
  destruct (converter_Convert inputBytes (sourceFormat fc) ea)
    as [riverBytes diags] eqn:Hconv.
  destruct (generateConvertReport diags fc) as [[err|] reffs] eqn:Hrep; [done|].
  destruct (hasErrorLevel diags SeverityLevelCritical) eqn:Hc; [done|].
  simpl.
  destruct (negb (bypassErrors fc) && hasErrorLevel diags SeverityLevelError)
    eqn:Hgate; [done|].
  intros Hres.
  exists inputBytes, ea, riverBytes, diags.
  split_and!; [done|done|done|done| |].
  - apply andb_false_iff in Hgate as [Hb|He]; [left|by right].
    by apply negb_false_iff.
  - assert (reffs = if decide (report fc = ""%string) then []
                    else [EffCreate (report fc); EffReport (report fc) diags])
      as ->.
    { unfold generateConvertReport in Hrep.
      destruct (decide (report fc ≠ ""%string)) as [Hne|Heq].
      - destruct (os_Create (report fc)); [done|].
        injection Hrep as _ <-. by destruct (decide (report fc = ""%string)).
      - injection Hrep as <-. destruct (decide (report fc = ""%string)); [done|].
        by destruct Heq. }
    destruct (decide (output fc = ""%string)).
    + by injection Hres as _ <-.
    + destruct (os_Create (output fc)); [done|]. by injection Hres as _ <-.
Qed.

(** X13.  With a report path that can be created, the report is written
    first and holds all diagnostics, whatever [convert] does afterwards,
    also when the output is then suppressed. *)
Theorem report_written_first (fc : flowConvert) (inputBytes : string)
    (ea : list string) (riverBytes : string) (diags : Diagnostics) :
  parseExtraArgs (extraArgs fc) = ParseRet ea None →
  converter_Convert inputBytes (sourceFormat fc) ea = (riverBytes, diags) →
  report fc ≠ ""%string →
  os_Create (report fc) = None →
  ∃ err effs,
    convert (inl inputBytes) fc = ConvRet err effs ∧
    [EffCreate (report fc); EffReport (report fc) diags] `prefix_of` effs.
Proof.
  intros Hparse Hconv Hrep Hcreate. unfold convert.
  rewrite Hparse, Hconv. unfold generateConvertReport.
  destruct (decide (report fc ≠ ""%string)); [|done]. rewrite Hcreate.
  destruct (GenerateReport diags) as [e|]; simpl.
  { eexists _, _. split; [done|]. done. }
  destruct (_ || _).
  { eexists _, _. split; [done|]. done. }
  destruct (decide (output fc = ""%string)).
  { eexists _, _. split; [done|]. by eexists. }
  destruct (os_Create (output fc)).
  { eexists _, _. split; [done|]. done. }
  eexists _, _. split; [done|]. by eexists.
Qed.

(** X14.  [flowConvert.Run] succeeds or has an effect only if a source
    format is given and the input is standard input or a path that is not a
    directory and can be opened; it is then the conversion of that
    input. *)
Theorem Run_converts_only_readable_input (fc : flowConvert)
    (configFile : string) (err : option error) (effs : list effect) :
  Run fc configFile = ConvRet err effs →
  err = None ∨ effs ≠ [] →
  sourceFormat fc ≠ ""%string ∧
  (configFile = "-"%string ∧ Run fc configFile = convert os_Stdin fc ∨
   ∃ f, os_Stat configFile = inr false ∧ os_Open configFile = inr f ∧
        Run fc configFile = convert f fc).
Proof.
  unfold Run. intros Hrun Hdid.
  destruct (decide (sourceFormat fc = ""%string)).
  { injection Hrun as <- <-. by destruct Hdid. }
  split; [done|].
  destruct (decide (configFile = "-"%string)); [by left|right].
  destruct (os_Stat configFile) as [e|[|]].
  { injection Hrun as <- <-. by destruct Hdid. }
  { injection Hrun as <- <-. by destruct Hdid. }
  destruct (os_Open configFile) as [e|f].
  { injection Hrun as <- <-. by destruct Hdid. }
  by exists f.
Qed.

(** An argument carries a value when a non-empty text follows its first
    "=". *)
Lemma SplitN2_value (a name value : string) :
  gostrings.cut equals a = Some (name, value) →
  gostrings.SplitN2 a equals = [name; value].
Proof. unfold gostrings.SplitN2. by intros ->. Qed.

Lemma parse_loop_short (i : nat) (args result : list string) (fs : FlagSet) :
  Exists (λ a, String.length a < 2) args → parse_loop i args result fs = None.
Proof.
  intros Hex. revert i result fs.
  induction Hex as [a args Ha|a args _ IH]; intros i result fs; simpl.
  - assert (gostrings.index a 1 = None) as ->; [|done].
    unfold gostrings.index. destruct a as [|c [|c' a]]; simpl in *; [done|done|lia].
  - destruct (gostrings.index a 1) as [c|]; [|done]. simpl.
    destruct (gostrings.SplitN2 a equals !! 0) as [s0|]; [|done]. simpl.
    destruct (decide _); [|apply IH].
    destruct (gostrings.SplitN2 a equals !! i) as [si|]; [|done]. simpl.
    destruct (decide (c = dash)).
    + destruct (gostrings.slice_from si 2); [|done]. simpl.
      destruct (StringVar _ _ _ _); [|done]. simpl. apply IH.
    + destruct (gostrings.slice_from si 1); [|done]. simpl.
      destruct (StringVarP _ _ _ _ _); [|done]. simpl. apply IH.
Qed.

Lemma parse_loop_late_value (i j : nat) (args result : list string)
    (fs : FlagSet) (a name value : string) :
  args !! j = Some a → 2 ≤ i + j →
  gostrings.cut equals a = Some (name, value) → value ≠ ""%string →
  parse_loop i args result fs = None.
Proof.
  intros Hj Hij Hcut Hval. revert i j result fs Hj Hij.
  induction args as [|b args IH]; intros i j result fs Hj Hij; [done|].
  simpl. destruct j as [|j].
  - injection Hj as ->.
    destruct (gostrings.index a 1) as [c|]; [|done]. simpl.
    rewrite (SplitN2_value _ _ _ Hcut). simpl.
    destruct (decide _) as [_|Hn].
    2:{ exfalso. apply Hn. split; [done|]. congruence. }
    rewrite Nat.add_0_r in Hij.
    destruct i as [|[|i]]; [lia|lia|]. done.
  - simpl in Hj.
    destruct (gostrings.index b 1) as [c|]; [|done]. simpl.
    destruct (gostrings.SplitN2 b equals !! 0) as [s0|]; [|done]. simpl.
    destruct (decide _); [|apply (IH (S i) j); [done|lia]].
    destruct (gostrings.SplitN2 b equals !! i) as [si|]; [|done]. simpl.
    destruct (decide (c = dash)).
    + destruct (gostrings.slice_from si 2); [|done]. simpl.
      destruct (StringVar _ _ _ _); [|done]. simpl.
      apply (IH (S i) j); [done|lia].
    + destruct (gostrings.slice_from si 1); [|done]. simpl.
      destruct (StringVarP _ _ _ _ _); [|done]. simpl.
      apply (IH (S i) j); [done|lia].
Qed.

(** X15.  [parseExtraArgs] panics whenever some argument is a single byte,
    wherever it stands, and whenever the third or a later argument carries
    a non-empty value. *)
Theorem parseExtraArgs_panic_conditions (extra : string) :
  (∃ a, a ∈ gostrings.Fields extra ∧ String.length a < 2) ∨
  (∃ j a name value,
     gostrings.Fields extra !! j = Some a ∧ 2 ≤ j ∧
     gostrings.cut equals a = Some (name, value) ∧ value ≠ ""%string) →
  parseExtraArgs extra = ParsePanic.
Proof.
  intros Hbad. unfold parseExtraArgs.
  destruct (decide (extra = ""%string)) as [->|_].
  { exfalso. change (gostrings.Fields "") with (@nil string) in Hbad.
    destruct Hbad as [(a & Ha & _)|(j & a & ? & ? & Hj & _)].
    - by apply elem_of_nil in Ha.
    - by rewrite lookup_nil in Hj. }
  destruct Hbad as [(a & Ha & Hlen)|(j & a & name & value & Hj & H2 & Hc & Hv)].
  - rewrite parse_loop_short; [done|]. apply Exists_exists. eauto.
  - by rewrite (parse_loop_late_value 0 j _ _ _ a name value).
Qed.



End ConvertMore.

(** ** More on nodes, bodies and [Load] *)

Lemma string_app_assoc (a b c : string) :
  ((a ++ b) ++ c)%string = (a ++ b ++ c)%string.
Proof.
  induction a as [|x a IH]; [done|].
  change (String x ((a ++ b) ++ c) = String x (a ++ b ++ c))%string.
  by rewrite IH.
Qed.

Lemma Join_snoc (xs : list string) (x sep : string) :
  xs ≠ [] →
  gostrings.Join (xs ++ [x]) sep
  = (gostrings.Join xs sep ++ sep ++ x)%string.
Proof.
  induction xs as [|y xs IH]; [done|]. intros _.
  destruct xs as [|z xs]; [done|].
  change (gostrings.Join ((y :: z :: xs) ++ [x]) sep)
    with (y ++ sep ++ gostrings.Join ((z :: xs) ++ [x]) sep)%string.
  rewrite IH by done.
  change (gostrings.Join (y :: z :: xs) sep)
    with (y ++ sep ++ gostrings.Join (z :: xs) sep)%string.
  by rewrite !string_app_assoc.
Qed.

(** Induction on bodies, through the blocks nested in them. *)
Lemma Body_nested_ind (P : hcl.Body → Prop) :
  (∀ attrs blocks,
     Forall (λ b, P (hcl.BlockBody b)) blocks → P (hcl.mkBody attrs blocks)) →
  ∀ body, P body.
Proof.
  intros Hstep. fix IH 1. intros [attrs blocks]. apply Hstep.
  induction blocks as [|[ty labels inner] blocks IHb]; constructor.
  - simpl. apply IH.
  - exact IHb.
Qed.

Section NodeMore.
Context {Value Comp HBody : Type}.
Context `{!flow.Component Value Comp} `{!flow.Externals Value Comp HBody}.
Import flow.
Implicit Types (f : @Flow Comp) (st : list (@componentNode Comp)).

(** X5.  [expressionsFromSyntaxBody] finds exactly the traversals that
    occur in the body: those of its attributes and those of the bodies of
    the blocks nested in it, at any depth. *)
Theorem expressionsFromSyntaxBody_occurs (body : hcl.Body) (t : hcl.Traversal) :
  t ∈ expressionsFromSyntaxBody body ↔ hcl.occurs t body.
Proof.
  revert body. apply (Body_nested_ind (λ body,
    t ∈ expressionsFromSyntaxBody body ↔ hcl.occurs t body)).
  intros attrs blocks IH. rewrite Forall_forall in IH. simpl.
  rewrite elem_of_app. split.
  - intros [Ht|Ht].
    + apply list_elem_of_In, in_flat_map in Ht as (a & Ha & Hta).
      eapply hcl.occurs_attribute; by apply list_elem_of_In.
    + apply list_elem_of_In, in_flat_map in Ht as (b & Hb & Htb).
      apply list_elem_of_In in Hb.
      apply (hcl.occurs_nested _ _ _ b); [done|].
      apply IH; [done|]. destruct b. by apply list_elem_of_In.
  - inversion 1 as [? ? a Ha Hta|? ? b Hb Htb]; subst.
    + left. apply list_elem_of_In, in_flat_map. exists a.
      split; by apply list_elem_of_In.
    + right. apply list_elem_of_In, in_flat_map. exists b.
      split; [by apply list_elem_of_In|].
      apply IH in Htb; [|done]. destruct b. by apply list_elem_of_In.
Qed.

(** X6.  For a block with at least one label, the kind path handed to the
    builder is the block kind followed by all labels but the last, the name
    of the node is that path, a dot and the last label, and the new node
    has no component yet. *)
Theorem Name_kind_and_label (blk : hcl.Block) (labels : list string)
    (label : string) :
  hcl.Labels blk = labels ++ [label] →
  componentID (@newComponentNode Comp blk) = hcl.Type_ blk :: labels ∧
  Name (@newComponentNode Comp blk)
  = (reference_String (componentID (@newComponentNode Comp blk))
     ++ "." ++ label)%string ∧
  raw (@newComponentNode Comp blk) = None.
Proof.
  intros Hl. unfold componentID, Name, newComponentNode. simpl. rewrite Hl.
  assert (take (length (labels ++ [label]) - 0)
               (hcl.Type_ blk :: labels ++ [label])
          = hcl.Type_ blk :: labels) as Htake.
  { change (hcl.Type_ blk :: labels ++ [label])
      with ((hcl.Type_ blk :: labels) ++ [label]).
    apply take_app_length'. rewrite length_app. simpl. lia. }
  rewrite Htake. split_and!; [done| |done].
  unfold reference_String. rewrite app_comm_cons. by rewrite Join_snoc.
Qed.

End NodeMore.

Section LoadMore.
Context {Value Comp HBody : Type}.
Context `{!flow.Component Value Comp} `{!flow.Externals Value Comp HBody}.
Import flow.
Implicit Types (f : @Flow Comp) (st : list (@componentNode Comp)).

Lemma foldl_add_component_store blks f :
  store (foldl add_component f blks)
  = store f ++ (newComponentNode <$> blks) ∧
  log (foldl add_component f blks) = log f ∧
  configFile (foldl add_component f blks) = configFile f.
Proof.
  revert f. induction blks as [|b blks IH]; intros f; simpl.
  - by rewrite app_nil_r.
  - destruct (IH (add_component f b)) as (-> & -> & ->). simpl.
    by rewrite <- app_assoc.
Qed.

Lemma foldl_add_component_nodes blks f :
  (∀ n, n ∈ dag.nodes (graph f) → n < length (store f)) →
  dag.nodes (graph (foldl add_component f blks))
  = dag.nodes (graph f) ++ seq (length (store f)) (length blks).
Proof.
  revert f. induction blks as [|b blks IH]; intros f Hlt; simpl.
  - by rewrite app_nil_r.
  - rewrite IH.
    + simpl. rewrite Add_nodes, length_app. simpl.
      destruct (decide _) as [Hin|_]; [apply Hlt in Hin; lia|].
      rewrite <- app_assoc. simpl. do 3 f_equal. lia.
    + simpl. rewrite Add_nodes, length_app. simpl.
      destruct (decide _) as [Hin|_]; [apply Hlt in Hin; lia|].
      intros n [Hn|Hn]%elem_of_app; [apply Hlt in Hn; lia|].
      apply list_elem_of_singleton in Hn. lia.
Qed.

(** A visit of the builder changes no reference and no block; it adds at
    most one call, for the visited node, and without a call the store is
    untouched; after a failure nothing else is done. *)
Lemma build_node_any l g n s s' r :
  build_node l g n s = (s', r) →
  shape <$> s'.1 = shape <$> s.1 ∧
  ∃ new, s'.2 = s.2 ++ new ∧ (new = [] → s'.1 = s.1) ∧
         (new = [] ∨ bc_node <$> new = [n]) ∧
         (new = [] → r ≠ None).
Proof.
  unfold build_node. destruct (s.1 !! n) as [cn|] eqn:Hn.
  2:{ intros [= <- <-]. split; [done|]. exists [].
      rewrite app_nil_r. split_and!; by auto. }
  destruct (BuildEvalContext s.1 (dag.Dependencies g n)) as [ectx [err|]|].
  - intros [= <- <-]. split; [done|]. exists [].
    rewrite app_nil_r. split_and!; by auto.
  - destruct (component_BuildHCL _ _ _) as [rc|err]; intros [= <- <-]; simpl.
    + split.
      * rewrite list_fmap_insert. apply list_insert_id.
        rewrite list_lookup_fmap.
        change (Some (shape (Set_ cn rc))) with (shape <$> Some cn).
        by f_equal.
      * eexists. split_and!; [done|done|by right|done].
    + split; [done|]. eexists. split_and!; [done|done|by right|done].
  - intros [= <- <-]. split; [done|]. exists [].
    rewrite app_nil_r. split_and!; by auto.
Qed.

Lemma walk_visit_any l g order s s' r :
  dag.walk_visit (build_node l g) order s = (s', r) →
  shape <$> s'.1 = shape <$> s.1 ∧
  ∃ new, s'.2 = s.2 ++ new ∧ (new = [] → s'.1 = s.1) ∧
         (bc_node <$> new) `prefix_of` order.
Proof.
  revert s. induction order as [|n order IH]; intros s; simpl.
  - intros [= <- <-]. split; [done|]. exists [].
    rewrite app_nil_r. split_and!; [done|done|]. by exists [].
  - destruct (build_node l g n s) as [s1 [e|]] eqn:Hb.
    + intros [= <- <-].
      apply build_node_any in Hb as (Hshape & new & Hnew & Hst & Hn & _).
      split; [done|]. exists new. split_and!; [done|done|].
      destruct Hn as [->| ->]; [by eexists|]. by exists order.
    + intros Hw. apply IH in Hw as (Hshape' & new' & Hnew' & Hst' & Hpre).
      apply build_node_any in Hb as (Hshape & new & Hnew & Hst & Hn & Hr).
      split; [congruence|]. exists (new ++ new'). split_and!.
      * by rewrite Hnew', Hnew, <- app_assoc.
      * intros [-> ->]%app_eq_nil. rewrite Hst', Hst; done.
      * destruct Hn as [->|Hn]; [by destruct Hr|].
        rewrite fmap_app, Hn. simpl. by apply prefix_cons.
Qed.

(** A visit makes at most one call of the builder, and its result is the
    result of that call: the error of a failed call is the error of the
    visit. *)
Lemma build_node_failed l g n s s' r :
  build_node l g n s = (s', r) →
  ∃ new, s'.2 = s.2 ++ new ∧ length new ≤ 1 ∧
    ∀ c, c ∈ new →
      match component_BuildHCL (bc_kind c) (bc_ctx c) (bc_block c) with
      | inr err => r = Some (Failed err)
      | inl _ => r = None
      end.
Proof.
  unfold build_node. destruct (s.1 !! n) as [cn|] eqn:Hn.
  2:{ intros [= <- <-]. exists []. rewrite app_nil_r.
      split_and!; [done|simpl; lia|]. by intros c Hc%elem_of_nil. }
  destruct (BuildEvalContext s.1 (dag.Dependencies g n)) as [ectx [err|]|].
  - intros [= <- <-]. exists []. rewrite app_nil_r.
    split_and!; [done|simpl; lia|]. by intros c Hc%elem_of_nil.
  - destruct (component_BuildHCL _ _ _) as [rc|err] eqn:Hb;
      intros [= <- <-]; simpl; eexists; (split_and!; [done|simpl; lia|]);
      intros c ->%list_elem_of_singleton; simpl; by rewrite Hb.
  - intros [= <- <-]. exists []. rewrite app_nil_r.
    split_and!; [done|simpl; lia|]. by intros c Hc%elem_of_nil.
Qed.

(** Along a walk, a failed call of the builder is the last call, and its
    error is the result of the walk. *)
Lemma walk_visit_failed l g order s s' r :
  dag.walk_visit (build_node l g) order s = (s', r) →
  ∃ new, s'.2 = s.2 ++ new ∧
    ∀ i c err, new !! i = Some c →
      component_BuildHCL (bc_kind c) (bc_ctx c) (bc_block c) = inr err →
      S i = length new ∧ r = Some (Failed err).
Proof.
  revert s. induction order as [|n order IH]; intros s; simpl.
  - intros [= <- <-]. exists []. rewrite app_nil_r. split; [done|].
    intros i c err Hi. by rewrite lookup_nil in Hi.
  - destruct (build_node l g n s) as [s1 [e|]] eqn:Hb.
    + intros [= <- <-].
      apply build_node_failed in Hb as (new & Hnew & Hlen & Hres).
      exists new. split; [done|]. intros i c err Hi Hfail.
      pose proof (lookup_lt_Some _ _ _ Hi) as Hlt.
      specialize (Hres c (list_elem_of_lookup_2 _ _ _ Hi)).
      rewrite Hfail in Hres. split; [lia|done].
    + intros Hw. apply IH in Hw as (new' & Hnew' & Hres').
      apply build_node_failed in Hb as (new & Hnew & Hlen & Hres).
      exists (new ++ new'). split; [by rewrite Hnew', Hnew, <- app_assoc|].
      intros i c err Hi Hfail.
      apply lookup_app_Some in Hi as [Hi|[Hge Hi]].
      * specialize (Hres c (list_elem_of_lookup_2 _ _ _ Hi)).
        by rewrite Hfail in Hres.
      * destruct (Hres' _ _ _ Hi Hfail) as [Hlast ->].
        split; [|done]. rewrite length_app. lia.
Qed.

(** X1.  [Load] leaves the runtime alone and calls no builder unless the
    file was read and the diagnostics of parsing, of decoding the top-level
    block and of matching the blocks against the schema hold no error. *)
Theorem Load_changes_only_after_checkpoints f :
  load_flow (Load f) ≠ f ∨ load_builds (Load f) ≠ [] →
  ∃ bb file diags root decodeDiags content remainDiags,
    os_ReadFile (configFile f) = inl bb ∧
    hclsyntax_ParseConfig bb (configFile f) = (file, diags) ∧
    gohcl_DecodeBody file = (root, decodeDiags) ∧
    body_Content (Remain root) = (content, remainDiags) ∧
    hcl.HasErrors (hcl.Extend (hcl.Extend diags decodeDiags) remainDiags)
    = false.
Proof.
  unfold Load.
  destruct (os_ReadFile (configFile f)) as [bb|err] eqn:Hread;
    [|simpl; intros [?|?]; done].
  destruct (hclsyntax_ParseConfig bb (configFile f)) as [file diags] eqn:Hparse.
  destruct (hcl.HasErrors diags); [simpl; intros [?|?]; done|].
  destruct (gohcl_DecodeBody file) as [root decodeDiags] eqn:Hdecode.
  destruct (hcl.HasErrors (hcl.Extend diags decodeDiags));
    [simpl; intros [?|?]; done|].
  destruct (body_Content (Remain root)) as [content remainDiags] eqn:Hcontent.
  destruct (hcl.HasErrors _) eqn:Hc; [simpl; intros [?|?]; done|].
  intros _. by exists bb, file, diags, root, decodeDiags, content, remainDiags.
Qed.

(** X2.  Once the three checkpoints are passed, whatever [Load] returns, the
    store is the old store followed by one new node per block of the file,
    in order; the references and blocks of the old nodes are unchanged and
    a new node has the block kind followed by the labels as its reference.
    Loading again therefore adds every node a second time. *)
Theorem Load_store_shape f bb file diags root decodeDiags content remainDiags :
  os_ReadFile (configFile f) = inl bb →
  hclsyntax_ParseConfig bb (configFile f) = (file, diags) →
  gohcl_DecodeBody file = (root, decodeDiags) →
  body_Content (Remain root) = (content, remainDiags) →
  hcl.HasErrors (hcl.Extend (hcl.Extend diags decodeDiags) remainDiags)
  = false →
  shape <$> store (load_flow (Load f))
  = (shape <$> store f) ++
    ((λ b, (hcl.Type_ b :: hcl.Labels b, b)) <$> content) ∧
  log (load_flow (Load f)) = log f ∧
  configFile (load_flow (Load f)) = configFile f.
Proof.
  intros Hread Hparse Hdecode Hcontent Hok.
  assert (hcl.HasErrors diags = false ∧
          hcl.HasErrors (hcl.Extend diags decodeDiags) = false) as [Hd Hdd].
  { rewrite !existsb_HasErrors_app in Hok. rewrite existsb_HasErrors_app.
    apply orb_false_iff in Hok as [Hok _]. split; [|done].
    by apply orb_false_iff in Hok as [? _]. }
  unfold Load. rewrite Hread, Hparse, Hd, Hdecode, Hdd, Hcontent, Hok.
  destruct (foldl_add_component_store content f) as (Hst & Hlog & Hcf).
  assert (shape <$> store (foldl add_component f content)
          = (shape <$> store f) ++
            ((λ b, (hcl.Type_ b :: hcl.Labels b, b)) <$> content)) as Hshape.
  { rewrite Hst, fmap_app. f_equal. by rewrite <- list_fmap_compose. }
  destruct (wire_nodes _ _ _ _) as [g2 diags2].
  destruct (hcl.HasErrors diags2); [done|].
  unfold dag.WalkTopological.
  destruct (dag.walk_visit _ _ _) as [[store' calls] err] eqn:Hwalk.
  apply walk_visit_any in Hwalk as (Hsh & _). simpl in *.
  split_and!; [|done|done]. by rewrite Hsh.
Qed.

(** X4.  Whatever [Load] returns, the builder calls it made follow the
    topological walk of the final graph from its beginning, as far as they
    go, and no node is built twice.  A call on which the builder fails is
    the last call: no call is made after it, and [Load] returns the error
    of that call. *)
Theorem Load_builder_at_most_once f :
  dag.wf (graph f) →
  NoDup (bc_node <$> load_builds (Load f)) ∧
  (bc_node <$> load_builds (Load f))
    `prefix_of` dag.walk_order (graph (load_flow (Load f)))
                               (dag.Leaves (graph (load_flow (Load f)))) ∧
  ∀ i c err,
    load_builds (Load f) !! i = Some c →
    component_BuildHCL (bc_kind c) (bc_ctx c) (bc_block c) = inr err →
    S i = length (load_builds (Load f)) ∧ load_ret (Load f) = RetErr err.
Proof.
  intros Hwf.
  assert (NoDup (@nil dag.Node)) as Hnil by apply NoDup_nil_2.
  assert (∀ r, ∀ i (c : @BuildCall Value) err, [] !! i = Some c →
    component_BuildHCL (bc_kind c) (bc_ctx c) (bc_block c) = inr err →
    S i = length (@nil (@BuildCall Value)) ∧ r = RetErr err) as Hno.
  { intros r i c err Hi. by rewrite lookup_nil in Hi. }
  unfold Load.
  destruct (os_ReadFile (configFile f)) as [bb|err];
    [|split_and!; [done|by eexists|apply Hno]].
  destruct (hclsyntax_ParseConfig bb (configFile f)) as [file diags].
  destruct (hcl.HasErrors diags); [split_and!; [done|by eexists|apply Hno]|].
  destruct (gohcl_DecodeBody file) as [root decodeDiags].
  destruct (hcl.HasErrors (hcl.Extend diags decodeDiags));
    [split_and!; [done|by eexists|apply Hno]|].
  destruct (body_Content (Remain root)) as [content remainDiags].
  destruct (hcl.HasErrors _); [split_and!; [done|by eexists|apply Hno]|].
  set (f1 := foldl add_component f content).
  destruct (wire_nodes _ _ _ _) as [g2 diags2] eqn:Hwire.
  destruct (hcl.HasErrors diags2); [split_and!; [done|by eexists|apply Hno]|].
  unfold dag.WalkTopological.
  destruct (dag.walk_visit _ _ _) as [[store' calls] err] eqn:Hwalk.
  pose proof (walk_visit_failed _ _ _ _ _ _ Hwalk) as (new' & Hnew' & Hfail).
  apply walk_visit_any in Hwalk as (_ & new & Hnew & _ & Hpre).
  simpl in *. subst calls new'.
  assert (dag.wf (dag.Reduce g2)) as Hwf3.
  { apply Reduce_wf. replace g2 with (wire_nodes (nt f1) (store f1)
      (dag.Nodes (graph f1)) (graph f1, hcl.Extend
        (hcl.Extend diags decodeDiags) remainDiags)).1 by (by rewrite Hwire).
    apply wire_nodes_wf. simpl. by apply foldl_add_component_wf. }
  destruct (walk_order_Leaves _ Hwf3) as (_ & Hnd & _).
  split_and!; [|done|].
  - destruct Hpre as [k Hk]. rewrite Hk in Hnd.
    by apply NoDup_app in Hnd as [? _].
  - intros i c e Hi Hc. destruct (Hfail i c e Hi Hc) as [Hlast ->]. done.
Qed.

(** X3.  After a [Load] of a new runtime that has inserted nodes but has not
    reached the builder, [Run] starts no worker: it stops at the first
    node, with the not-initialized error of that node and the lock held. *)
Theorem Load_without_builds_then_Run (l : Logger) (file : string) :
  load_builds (Load (New l file)) = [] →
  store (load_flow (Load (New l file))) ≠ [] →
  rs_started (Run_start (Value:=Value) (load_flow (Load (New l file)))) = [] ∧
  rs_locked (Run_start (Value:=Value) (load_flow (Load (New l file)))) = true ∧
  ∃ cn, store (load_flow (Load (New l file))) !! 0 = Some cn ∧
    rs_arbiter (Run_start (Value:=Value) (load_flow (Load (New l file))))
    = AWaiting (RetErr (ErrNotInitialized (Name cn))).
Proof.
  assert (∀ g st ntab blk content,
    dag.nodes g = seq 0 (length (blk :: content)) →
    st = @newComponentNode Comp <$> (blk :: content) →
    let f' := mkFlow l file st g ntab in
    rs_started (Run_start (Value:=Value) f') = [] ∧
    rs_locked (Run_start (Value:=Value) f') = true ∧
    ∃ cn, st !! 0 = Some cn ∧
      rs_arbiter (Run_start (Value:=Value) f')
      = AWaiting (RetErr (ErrNotInitialized (Name cn)))) as Hrun.
  { intros g st ntab blk content Hnodes -> f'. unfold Run_start, dag.Nodes. simpl.
    rewrite Hnodes. simpl. split_and!; [done|done|]. by eexists. }
  unfold Load. simpl.
  destruct (os_ReadFile file) as [bb|err]; [|done].
  destruct (hclsyntax_ParseConfig bb file) as [body diags].
  destruct (hcl.HasErrors diags); [done|].
  destruct (gohcl_DecodeBody body) as [root decodeDiags].
  destruct (hcl.HasErrors (hcl.Extend diags decodeDiags)); [done|].
  destruct (body_Content (Remain root)) as [content remainDiags].
  destruct (hcl.HasErrors _); [done|].
  destruct (foldl_add_component_store content (New l file)) as (Hst & Hlog & Hcf).
  pose proof (foldl_add_component_nodes content (New l file)) as Hnodes.
  simpl in Hst, Hlog, Hcf, Hnodes.
  destruct (wire_nodes _ _ _ _) as [g2 diags2] eqn:Hwire.
  assert (dag.nodes g2 = seq 0 (length content)) as Hg2.
  { replace g2 with (g2, diags2).1 by done. rewrite <- Hwire.
    rewrite wire_nodes_nodes. simpl. apply Hnodes.
    intros n Hn. by apply elem_of_nil in Hn. }
  destruct (hcl.HasErrors diags2).
  - simpl. intros _ Hne. rewrite Hst in *. rewrite Hlog, Hcf.
    destruct content as [|blk content]; [done|].
    by apply (Hrun g2 _ _ blk content).
  - unfold dag.WalkTopological.
    destruct (dag.walk_visit _ _ _) as [[store' calls] err] eqn:Hwalk.
    apply walk_visit_any in Hwalk as (_ & new & Hnew & Hsame & _).
    simpl in *. intros -> Hne. subst new. rewrite Hsame in * by done.
    rewrite Hst in *. rewrite Hlog, Hcf.
    destruct content as [|blk content]; [done|].
    by apply (Hrun (dag.Reduce g2) _ _ blk content).
Qed.

End LoadMore.

(** ** More on [Run] *)

Section RunMore.
Context {Value Comp : Type}.
Context `{!flow.Component Value Comp}.
Import flow.
Implicit Types (f : @Flow Comp) (st : list (@componentNode Comp)).
Implicit Types (rs : @RunState Value Comp) (tr : list (@event Value Comp)).

Lemma start_workers_any ns rs rs' r :
  start_workers ns rs = (rs', r) →
  ∃ pre, pre `prefix_of` ns ∧
    rs' = emit (set_started rs (rs_started rs ++ pre)) (EvGo <$> pre) ∧
    (r = RetNil → pre = ns).
Proof.
  revert rs. induction ns as [|n ns IH]; intros rs; simpl.
  - intros [= <- <-]. exists []. split_and!; [done| |done].
    destruct rs. unfold emit, set_started. simpl. by rewrite !app_nil_r.
  - assert (rs = emit (set_started rs (rs_started rs ++ [])) (EvGo <$> []))
      as Hsame.
    { destruct rs. unfold emit, set_started. simpl. by rewrite !app_nil_r. }
    destruct (store (rs_flow rs) !! n) as [cn|].
    2:{ intros [= <- <-]. exists []. split_and!; [by eexists|done|done]. }
    destruct (raw cn).
    2:{ intros [= <- <-]. exists []. split_and!; [by eexists|done|done]. }
    intros Hs. apply IH in Hs as (pre & Hpre & -> & Hnil).
    exists (n :: pre). split_and!.
    + by apply prefix_cons.
    + destruct rs. unfold emit, set_started. simpl. by rewrite <- !app_assoc.
    + intros Hr. by rewrite Hnil.
Qed.

(** The state in which the loop of [Run] is entered, whatever the
    runtime. *)
Lemma Run_start_any f :
  ∃ pre, pre `prefix_of` dag.Nodes (graph f) ∧
    (Run_start (Value:=Value) f
     = mkRunState f false pre [] [] [] 0 false AIdle
         ([EvLock] ++ (EvGo <$> pre) ++ [EvUnlock]) ∨
     ∃ r, r ≠ RetNil ∧
       Run_start (Value:=Value) f
       = mkRunState f true pre [] [] [] 0 false (AWaiting r)
           ([EvLock] ++ (EvGo <$> pre))).
Proof.
  unfold Run_start.
  destruct (start_workers _ _) as [rs' r] eqn:Hs.
  apply start_workers_any in Hs as (pre & Hpre & -> & _).
  exists pre. split; [done|].
  destruct r; [left; reflexivity|right..]; eexists; (split; [|reflexivity]); done.
Qed.

Lemma update_dependants_any g ds st tr st' tr' :
  update_dependants g ds st tr = Some (st', tr') →
  shape <$> st' = shape <$> st ∧
  ∃ new, tr' = tr ++ new ∧
    Forall (λ e, match e with
                 | EvUpdate _ _ _ | EvLog _ => True
                 | _ => False
                 end) new.
Proof.
  revert st tr. induction ds as [|d ds IH]; intros st tr; simpl.
  - intros [= <- <-]. split; [done|]. exists []. by rewrite app_nil_r.
  - destruct (st !! d) as [cn|] eqn:Hd; [|done].
    destruct (BuildEvalContext st (dag.Dependencies g d)) as [ectx [err|]|];
      [| |done].
    + intros Hu. apply IH in Hu as (Hsh & new & -> & Hall).
      split; [done|]. eexists. rewrite <- app_assoc. split; [done|].
      by constructor.
    + destruct (raw cn) as [c|]; [|done].
      destruct (Update c _ (block cn)) as [c' r].
      assert (shape <$> <[d:=Set_ cn c']> st = shape <$> st) as Hins.
      { rewrite list_fmap_insert. apply list_insert_id.
        rewrite list_lookup_fmap.
        change (Some (shape (Set_ cn c'))) with (shape <$> Some cn).
        by f_equal. }
      destruct r as [err|]; intros Hu;
        apply IH in Hu as (Hsh & new & -> & Hall);
        (split; [congruence|]); eexists; rewrite <- !app_assoc;
        (split; [done|]); by repeat constructor.
Qed.

Lemma handle_updated_any key rs rs' :
  handle_updated key rs = Some rs' →
  ∃ st' new (cn : @componentNode Comp),
    rs' = emit (set_flow rs (set_store (rs_flow rs) st'))
            ([EvLog (LogDebug "handling node with updated state" (Name cn));
              EvLock] ++ new ++ [EvUnlock]) ∧
    shape <$> st' = shape <$> store (rs_flow rs) ∧
    Forall (λ e, match e with
                 | EvUpdate _ _ _ | EvLog _ => True
                 | _ => False
                 end) new.
Proof.
  unfold handle_updated.
  destruct (store (rs_flow rs) !! key) as [cn|]; [|done]. simpl.
  destruct (update_dependants _ _ _ _) as [[st' tr']|] eqn:Hu; [|done].
  simpl. intros [= <-].
  apply update_dependants_any in Hu as (Hsh & new & -> & Hall).
  exists st', new, cn. split_and!; [|done|done].
  by rewrite <- app_assoc.
Qed.

Lemma exec_app rs ls1 ls2 :
  exec rs (ls1 ++ ls2) = exec rs ls1 ≫= λ rs', exec rs' ls2.
Proof.
  revert rs. induction ls1 as [|l ls1 IH]; intros rs; simpl; [done|].
  destruct (step rs l); simpl; [apply IH|done].
Qed.

(** An invariant of the steps holds in every state that a schedule
    reaches. *)
Lemma exec_invariant (P : RunState → Prop) rs ls rs' :
  (∀ rs1 l rs2, P rs1 → step rs1 l = Some rs2 → P rs2) →
  P rs → exec rs ls = Some rs' → P rs'.
Proof.
  intros Hstep. revert rs. induction ls as [|l ls IH]; intros rs HP; simpl.
  - by intros [= <-].
  - destruct (step rs l) as [rs1|] eqn:Hs; [|done]. simpl.
    apply IH. by eapply Hstep.
Qed.

(** X11.  No step of a run changes the graph, the nametable, the logger,
    the file name, or the reference or block of any node: only the
    components of the nodes change. *)
Theorem Run_keeps_graph_and_shapes rs ls rs' :
  exec rs ls = Some rs' →
  graph (rs_flow rs') = graph (rs_flow rs) ∧
  nt (rs_flow rs') = nt (rs_flow rs) ∧
  log (rs_flow rs') = log (rs_flow rs) ∧
  configFile (rs_flow rs') = configFile (rs_flow rs) ∧
  shape <$> store (rs_flow rs') = shape <$> store (rs_flow rs).
Proof.
  apply (exec_invariant (λ r,
    graph (rs_flow r) = graph (rs_flow rs) ∧
    nt (rs_flow r) = nt (rs_flow rs) ∧
    log (rs_flow r) = log (rs_flow rs) ∧
    configFile (rs_flow r) = configFile (rs_flow rs) ∧
    shape <$> store (rs_flow r) = shape <$> store (rs_flow rs))); [|done].
  intros rs1 l rs2 (Hg & Hn & Hl & Hc & Hs).
  destruct l as [n|n|n c|n err| | |key| | | |]; simpl.
  - destruct (decide _); [|done]. by intros [= <-].
  - destruct (decide _); [|done]. intros [= <-].
    unfold notify_send. by destruct (decide _).
  - destruct (decide _); [|done].
    destruct (store (rs_flow rs1) !! n) as [cn|] eqn:Hcn; [|done].
    intros [= <-]. simpl. split_and!; [done..|].
    rewrite <- Hs, list_fmap_insert. apply list_insert_id.
    rewrite list_lookup_fmap.
    change (Some (shape (Set_ cn c))) with (shape <$> Some cn). by f_equal.
  - destruct (decide _); [|done]. intros [= <-].
    unfold worker_exit. by destruct err.
  - by intros [= <-].
  - destruct (rs_arbiter rs1); try done.
    destruct (decide _); [|done]. by intros [= <-].
  - destruct (rs_arbiter rs1); try done.
    destruct (decide _); [|done].
    destruct (handle_updated key rs1) as [rs3|] eqn:Hh; intros [= <-]; [|done].
    apply handle_updated_any in Hh as (st' & new & cn & -> & Hsh & _).
    simpl. split_and!; [done..|]. congruence.
  - destruct (rs_arbiter rs1); try done. by intros [= <-].
  - destruct (rs_arbiter rs1); try done.
    destruct (decide _); [|done]. by intros [= <-].
  - destruct (rs_arbiter rs1); try done.
    destruct (rs_cancelled rs1); [|done]. by intros [= <-].
  - destruct (rs_arbiter rs1); try done.
    destruct (decide _); [|done]. by intros [= <-].
Qed.


(** X7.  In every run, workers are started by the start-up loop only, a
    worker exits at most once and only if it was started, and [Run] has
    returned only when every started worker has exited. *)
Theorem Run_returns_after_workers f ls rs :
  exec (Run_start (Value:=Value) f) ls = Some rs →
  rs_started rs = rs_started (Run_start (Value:=Value) f) ∧
  NoDup (rs_exited rs) ∧
  (∀ n, n ∈ rs_exited rs → n ∈ rs_started rs) ∧
  (∀ r, rs_arbiter rs = AReturned r →
        ∀ n, n ∈ rs_started rs → n ∈ rs_exited rs).
Proof.
  apply (exec_invariant (λ r,
    rs_started r = rs_started (Run_start (Value:=Value) f) ∧
    NoDup (rs_exited r) ∧
    (∀ n, n ∈ rs_exited r → n ∈ rs_started r) ∧
    (∀ x, rs_arbiter r = AReturned x →
          ∀ n, n ∈ rs_started r → n ∈ rs_exited r))).
  2:{ destruct (Run_start_any f) as (pre & _ & [->|(r & _ & ->)]); simpl;
        (split_and!; [done|apply NoDup_nil_2| |done]);
        intros n Hn; by apply elem_of_nil in Hn. }
  intros rs1 l rs2 (Hst & Hnd & Hsub & Hret).
  destruct l as [n|n|n c|n err| | |key| | | |]; simpl.
  - destruct (decide _); [|done]. by intros [= <-].
  - destruct (decide _); [|done]. intros [= <-].
    unfold notify_send. by destruct (decide _).
  - destruct (decide _); [|done].
    destruct (store (rs_flow rs1) !! n); [|done]. by intros [= <-].
  - destruct (decide (running rs1 n)) as [(Hn & Hne & _)|]; [|done].
    intros [= <-].
    assert (NoDup (rs_exited rs1 ++ [n])) as Hnd'.
    { apply NoDup_app. split_and!; [done| |apply NoDup_singleton].
      intros x Hx Hx'. apply list_elem_of_singleton in Hx' as ->. done. }
    assert (∀ m, m ∈ rs_exited rs1 ++ [n] → m ∈ rs_started rs1) as Hsub'.
    { intros m [Hm|Hm]%elem_of_app; [by apply Hsub|].
      by apply list_elem_of_singleton in Hm as ->. }
    unfold worker_exit. destruct err; simpl; (split_and!; [done..|]);
      intros x Hx m Hm; apply elem_of_app; left; by eapply Hret.
  - by intros [= <-].
  - destruct (rs_arbiter rs1); try done.
    destruct (decide _); [|done]. by intros [= <-].
  - destruct (rs_arbiter rs1); try done.
    destruct (decide _); [|done].
    destruct (handle_updated key rs1) as [rs3|] eqn:Hh; intros [= <-]; [|done].
    by apply handle_updated_any in Hh as (st' & new & cn & -> & _ & _).
  - destruct (rs_arbiter rs1); try done. by intros [= <-].
  - destruct (rs_arbiter rs1); try done.
    destruct (decide _); [|done]. by intros [= <-].
  - destruct (rs_arbiter rs1); try done.
    destruct (rs_cancelled rs1); [|done]. by intros [= <-].
  - destruct (rs_arbiter rs1); try done.
    destruct (decide _) as [Hall|]; [|done]. intros [= <-]. simpl.
    split_and!; [done..|]. intros _ _ m Hm. by apply Hall.
Qed.

Lemma lock_trace_app tr1 tr2 held :
  lock_trace held (tr1 ++ tr2) = lock_trace held tr1 ≫= λ h, lock_trace h tr2.
Proof.
  revert held. induction tr1 as [|e tr1 IH]; intros held; simpl; [done|].
  destruct e; try apply IH; destruct held; simpl; try done; apply IH.
Qed.

Lemma lock_trace_held_updates tr :
  Forall (λ e, match e with
               | EvUpdate _ _ _ | EvLog _ => True
               | _ => False
               end) tr →
  lock_trace true tr = Some true.
Proof. induction 1 as [|[] tr He _ IH]; simpl; done. Qed.

Lemma lock_trace_go (pre : list dag.Node) :
  lock_trace (Value:=Value) (Comp:=Comp) true (EvGo <$> pre) = Some true.
Proof. induction pre as [|n pre IH]; simpl; done. Qed.

(** X8.  In every run the trace respects the mutex: [Lock] and [Unlock]
    alternate, workers are started and [Update] is called only while the
    lock is held, and no step after the start-up leaves the lock in another
    state than the start-up did. *)
Theorem mutex_discipline f ls rs :
  exec (Run_start (Value:=Value) f) ls = Some rs →
  lock_trace false (rs_trace rs) = Some (rs_locked rs) ∧
  rs_locked rs = rs_locked (Run_start (Value:=Value) f).
Proof.
  apply (exec_invariant (λ r,
    lock_trace false (rs_trace r) = Some (rs_locked r) ∧
    rs_locked r = rs_locked (Run_start (Value:=Value) f))).
  2:{ destruct (Run_start_any f) as (pre & _ & [->|(r & _ & ->)]); simpl;
        (split; [|done]).
      - by rewrite lock_trace_app, lock_trace_go.
      - by rewrite lock_trace_go. }
  intros rs1 l rs2 (Ht & Hl).
  assert (∀ evs, lock_trace (rs_locked rs1) evs = Some (rs_locked rs1) →
            lock_trace false (rs_trace rs1 ++ evs) = Some (rs_locked rs1))
    as Hemit.
  { intros evs Hevs. by rewrite lock_trace_app, Ht. }
  destruct l as [n|n|n c|n err| | |key| | | |]; simpl.
  - destruct (decide _); [|done]. intros [= <-]. simpl.
    split; [by apply Hemit|done].
  - destruct (decide _); [|done]. intros [= <-].
    unfold notify_send. destruct (decide _); simpl;
      (split; [by apply Hemit|done]).
  - destruct (decide _); [|done].
    destruct (store (rs_flow rs1) !! n); [|done]. by intros [= <-].
  - destruct (decide _); [|done]. intros [= <-].
    unfold worker_exit. destruct err; simpl; [|done].
    split; [by apply Hemit|done].
  - by intros [= <-].
  - destruct (rs_arbiter rs1); try done.
    destruct (decide _); [|done]. by intros [= <-].
  - destruct (rs_arbiter rs1); try done.
    destruct (decide _) as [(_ & _ & Hfree)|]; [|done].
    destruct (handle_updated key rs1) as [rs3|] eqn:Hh; intros [= <-]; [|done].
    apply handle_updated_any in Hh as (st' & new & cn & -> & _ & Hnew). simpl.
    split; [|done]. apply Hemit. rewrite Hfree. simpl.
    by rewrite lock_trace_app, lock_trace_held_updates.
  - destruct (rs_arbiter rs1); try done. intros [= <-]. simpl.
    split; [by apply Hemit|done].
  - destruct (rs_arbiter rs1); try done.
    destruct (decide _); [|done]. by intros [= <-].
  - destruct (rs_arbiter rs1); try done.
    destruct (rs_cancelled rs1); [|done]. by intros [= <-].
  - destruct (rs_arbiter rs1); try done.
    destruct (decide _); [|done]. intros [= <-]. simpl.
    split; [by apply Hemit|done].
Qed.

(** One node runs the callback to its end. *)
Lemma notify_once rs n :
  running rs n →
  ∃ rs2, exec rs [LNotifyStore n; LNotifySend n] = Some rs2 ∧
    rs_refreshCh rs2
    = (if decide (rs_refreshCh rs < 1) then S (rs_refreshCh rs)
       else rs_refreshCh rs) ∧
    rs_updated rs2
    = (if decide (n ∈ rs_updated rs) then rs_updated rs
       else rs_updated rs ++ [n]) ∧
    rs_notifying rs2 = rs_notifying rs ∧
    rs_started rs2 = rs_started rs ∧
    rs_exited rs2 = rs_exited rs ∧
    rs_arbiter rs2 = rs_arbiter rs.
Proof.
  intros Hrun. pose proof Hrun as (_ & _ & Hnot).
  exists (notify_send n (notify_store n rs)). simpl.
  destruct (decide (running rs n)); [|done]. simpl.
  destruct (decide (n ∈ rs_notifying rs ++ [n])) as [_|Hn].
  2:{ exfalso. apply Hn, elem_of_app. right. left. }
  assert (filter (λ m, m ≠ n) (rs_notifying rs ++ [n]) = rs_notifying rs)
    as Hfil.
  { rewrite filter_app, filter_cons_False, filter_nil, app_nil_r by (by intros ?).
    apply filter_all, Forall_forall. by intros x Hx ->. }
  unfold notify_send. simpl.
  destruct (decide (rs_refreshCh rs < 1)); simpl; by rewrite Hfil.
Qed.

(** X9.  A burst of notifications coalesces: when any number of running
    workers complete the callback one after the other, all steps can be
    taken, exactly one token is pending afterwards, and the updated set has
    gained exactly the notifying nodes. *)
Theorem notifications_coalesce rs ns :
  ns ≠ [] →
  Forall (running rs) ns →
  rs_refreshCh rs ≤ 1 →
  ∃ rs', exec rs (notify_script ns) = Some rs' ∧
    rs_refreshCh rs' = 1 ∧
    (∀ m, m ∈ rs_updated rs' ↔ m ∈ rs_updated rs ∨ m ∈ ns) ∧
    rs_arbiter rs' = rs_arbiter rs.
Proof.
  assert (∀ ns rs, Forall (running rs) ns → rs_refreshCh rs ≤ 1 →
    ∃ rs', exec rs (notify_script ns) = Some rs' ∧
      rs_refreshCh rs ≤ rs_refreshCh rs' ≤ 1 ∧
      (ns ≠ [] → rs_refreshCh rs' = 1) ∧
      (∀ m, m ∈ rs_updated rs' ↔ m ∈ rs_updated rs ∨ m ∈ ns) ∧
      rs_arbiter rs' = rs_arbiter rs) as Hgen.
  { clear. intros ns. induction ns as [|n ns IH]; intros rs Hall Hcap.
    - exists rs. split_and!; [done|lia|done|done| |done].
      intros m. split; [by left|]. intros [?|Hm]; [done|].
      by apply elem_of_nil in Hm.
    - apply Forall_cons in Hall as [Hn Hall].
      destruct (notify_once rs n Hn)
        as (rs2 & Hex & Htok & Hupd & Hnot & Hst & Hexi & Harb).
      assert (rs_refreshCh rs2 = 1) as Htok1.
      { rewrite Htok. destruct (decide _); lia. }
      destruct (IH rs2) as (rs' & Hex' & [Hlo Hhi] & _ & Hupd' & Harb').
      { eapply Forall_impl; [exact Hall|]. intros m (? & ? & ?).
        unfold running. by rewrite Hst, Hexi, Hnot. }
      { lia. }
      exists rs'. split_and!.
      + change (exec rs ([LNotifyStore n; LNotifySend n] ++ notify_script ns)
                = Some rs').
        by rewrite exec_app, Hex.
      + lia.
      + done.
      + intros _. lia.
      + intros m. rewrite Hupd', Hupd.
        destruct (decide (n ∈ rs_updated rs)).
        * rewrite elem_of_cons. split; [intros [?|?]; auto|].
          intros [?|[->|?]]; auto.
        * rewrite elem_of_app, list_elem_of_singleton, elem_of_cons.
          split; [intros [[?|?]|?]; auto|]. intros [?|[?|?]]; auto.
      + congruence. }
  intros Hne Hall Hcap.
  destruct (Hgen ns rs Hall Hcap) as (rs' & ? & ? & Htok & ? & ?).
  exists rs'. split_and!; [done|by apply Htok|done|done].
Qed.

(** From a quiet state the arbiter has nothing to wake up for: as long as
    no callback stores a node, the state stays quiet and [Update] is not
    called. *)
Lemma quiet_step rs l rs' :
  quiet rs → is_store l = false → step rs l = Some rs' →
  quiet rs' ∧ update_calls (rs_trace rs') = update_calls (rs_trace rs).
Proof.
  intros (Hu & Hc & Hn & Ha) Hl.
  destruct l as [n|n|n c|n err| | |key| | | |]; simpl; [done|..].
  - rewrite Hn. destruct (decide _) as [Hin|]; [|done].
    by apply elem_of_nil in Hin.
  - destruct (decide _); [|done].
    destruct (store (rs_flow rs) !! n); [|done]. by intros [= <-].
  - destruct (decide _); [|done]. intros [= <-].
    unfold worker_exit, quiet. destruct err; simpl; [|done].
    split; [done|]. rewrite update_calls_app. simpl. by rewrite app_nil_r.
  - by intros [= <-].
  - destruct (rs_arbiter rs); try done.
    destruct (decide _); [lia|done].
  - by destruct (rs_arbiter rs).
  - by destruct (rs_arbiter rs).
  - by destruct (rs_arbiter rs).
  - destruct (rs_arbiter rs); try done.
    destruct (rs_cancelled rs); [|done]. by intros [= <-].
  - destruct (rs_arbiter rs); try done.
    destruct (decide _); [|done]. intros [= <-]. unfold quiet. simpl.
    split; [done|]. rewrite update_calls_app. simpl. by rewrite app_nil_r.
Qed.

Lemma quiet_exec rs ls rs' :
  quiet rs → Forall (λ l, is_store l = false) ls → exec rs ls = Some rs' →
  quiet rs' ∧ update_calls (rs_trace rs') = update_calls (rs_trace rs).
Proof.
  intros Hq Hls. revert rs Hq.
  induction Hls as [|l ls Hl _ IH]; intros rs Hq; simpl.
  - by intros [= <-].
  - destruct (step rs l) as [rs1|] eqn:Hs; [|done]. simpl. intros Hex.
    destruct (quiet_step _ _ _ Hq Hl Hs) as [Hq1 <-]. by apply IH.
Qed.

End RunMore.

(** ** The properties at concrete inputs *)

Import flow examples.

(** C1.  On a runtime whose second node is not initialized [Run] has
    already started the worker of the first node when it meets the second:
    it returns the error only after that worker has exited, and with the
    graph lock still held.  The specification asks that no worker be
    started in that case. *)
Theorem Run_start_half_built :
  run_readyb half_built = false ∧
  rs_started (Run_start (Value:=nat) half_built) = [0] ∧
  rs_trace (Run_start (Value:=nat) half_built) = [EvLock; EvGo 0] ∧
  rs_locked (Run_start (Value:=nat) half_built) = true ∧
  rs_arbiter (Run_start (Value:=nat) half_built)
  = AWaiting (RetErr (ErrNotInitialized "filter.f")) ∧
  step (Run_start (Value:=nat) half_built) LReturn = None ∧
  (λ rs, (rs_arbiter rs, rs_locked rs)) <$>
    exec (Run_start (Value:=nat) half_built) [LExit 0 None; LReturn]
  = Some (AReturned (RetErr (ErrNotInitialized "filter.f")), true).
Proof. repeat split; reflexivity. Qed.

Lemma run_ready_chain_loaded : run_ready chain_loaded.
Proof. apply run_readyb_correct. reflexivity. Defined.

(** C7.  A node stored before a successful send can be lost.  On the chain,
    [source.s] notifies and the arbiter handles it, calling [Update] on
    [filter.f] with [source.s] bound to 1.  Before the deferred [Delete] of
    that callback runs, [source.s] changes its state to 5 and notifies
    again: the store is made, the send succeeds, a token is pending.  The
    deferred [Delete] then removes [source.s] from the updated set and the
    second token is spent on an empty [Range]: the arbiter is idle again,
    the set and the channel are empty, [filter.f] was updated once, from
    the old state, and whatever happens next, [Update] is not called again
    unless some callback stores a node anew.  The specification asks that
    one pending token suffice for the arbiter to observe the node. *)
Theorem notification_lost_by_deferred_delete :
  run_ready chain_loaded ∧
  exec (Run_start chain_loaded) resend_script = Some chain_resent ∧
  drop (length (rs_trace chain_resent) - 2) (rs_trace chain_resent)
  = [EvStore 0; EvSend true] ∧
  rs_updated chain_resent = [0] ∧
  rs_refreshCh chain_resent = 1 ∧
  raw (Comp:=nat) <$> store (rs_flow chain_resent) = [Some 5; Some 1; Some 2] ∧
  exec chain_resent drain_script = Some chain_lost ∧
  rs_arbiter chain_lost = AIdle ∧
  rs_updated chain_lost = [] ∧
  rs_refreshCh chain_lost = 0 ∧
  step chain_lost LRecv = None ∧
  raw (Comp:=nat) <$> store (rs_flow chain_lost) = [Some 5; Some 1; Some 2] ∧
  (λ call : dag.Node * option (EvalContext nat) * list (@componentNode nat),
     (call.1.1, Variables <$> call.1.2)) <$>
    update_calls (rs_trace chain_lost)
  = [(1, Some [(["source"; "s"]%string, 1)])] ∧
  ∀ ls rs,
    Forall (λ l, is_store l = false) ls →
    exec chain_lost ls = Some rs →
    update_calls (rs_trace rs) = update_calls (rs_trace chain_lost).
Proof.
  split; [exact run_ready_chain_loaded|].
  split; [vm_compute; reflexivity|].
  do 4 (split; [reflexivity|]).
  split; [vm_compute; reflexivity|].
  do 5 (split; [reflexivity|]).
  split; [vm_compute; reflexivity|].
  intros ls rs Hls Hex.
  assert (quiet chain_lost) as Hq by (by repeat split).
  by destruct (quiet_exec _ _ _ Hq Hls Hex) as [_ ->].
Qed.

Lemma notification_lost_then_shutdown :
  ∃ rs, exec chain_lost shutdown_script = Some rs ∧
    rs_arbiter rs = AReturned RetNil ∧
    raw (Comp:=nat) <$> store (rs_flow rs) = [Some 5; Some 1; Some 2] ∧
    update_calls (rs_trace rs) = update_calls (rs_trace chain_lost).
Proof.
  destruct (exec chain_lost shutdown_script) as [rs|] eqn:Hex;
    [|vm_compute in Hex; discriminate].
  exists rs. split; [reflexivity|].
  pose proof notification_lost_by_deferred_delete as Hlost.
  do 13 apply proj2 in Hlost.
  split; [vm_compute in Hex; injection Hex as <-; reflexivity|].
  split; [vm_compute in Hex; injection Hex as <-; reflexivity|].
  apply (Hlost shutdown_script rs); [|exact Hex].
  repeat constructor.
Defined.

Lemma refresh_updates_chain :
  run_ready chain_loaded ∧
  exec (Run_start chain_loaded) chain_script = Some chain_notified ∧
  step chain_notified (LVisit 0) = Some chain_handled ∧
  ∃ calls,
    update_calls (rs_trace chain_handled)
    = update_calls (rs_trace chain_notified) ++ calls ∧
    calls.*1.*1 = dag.Dependants (graph chain_loaded) 0 ∧
    (∀ d, d ∈ calls.*1.*1 ↔ dag.has_edge (graph chain_loaded) d 0) ∧
    Forall (call_ok (graph chain_loaded)) calls ∧
    stores_follow (store (rs_flow chain_notified)) calls.
Proof.
  split; [exact run_ready_chain_loaded|].
  split; [reflexivity|]. split; [reflexivity|].
  apply (refresh_updates_direct_dependants
           chain_loaded chain_script chain_notified 0 chain_handled);
    [exact run_ready_chain_loaded | reflexivity | reflexivity].
Defined.

Lemma Load_parse_errors_broken :
  hcl.HasErrors [parse_error] = true ∧
  load_ret (Load broken_flow) = RetErr (ErrDiagnostics [parse_error]) ∧
  load_flow (Load broken_flow) = broken_flow ∧
  load_builds (Load broken_flow) = [].
Proof.
  split; [reflexivity|].
  destruct (Load_parse_decode_errors broken_flow "broken" [] [parse_error]
              (mkRootBlock "" "" [] []) [])
    as (Hret & Hflow & _ & _ & Hb);
    [reflexivity | reflexivity | reflexivity | left; reflexivity |].
  split; [exact Hret|]. split; [exact Hflow|exact Hb].
Defined.

Lemma runtime_errors_chain :
  run_ready chain_loaded ∧
  exec (Run_start chain_loaded) chain_script = Some chain_notified ∧
  rs_arbiter chain_notified ≠ APanicked.
Proof.
  split; [exact run_ready_chain_loaded|]. split; [reflexivity|].
  destruct (runtime_errors_logged_not_propagated
              chain_loaded chain_script chain_notified)
    as ((Hnp & _) & _); [exact run_ready_chain_loaded | reflexivity |].
  exact Hnp.
Defined.

Lemma Load_builds_chain :
  dag.wf (graph chain_flow) ∧
  load_ret (Load chain_flow) = RetNil ∧
  bc_node <$> load_builds (Load chain_flow)
    ≡ₚ dag.Nodes (graph (load_flow (Load chain_flow))) ∧
  NoDup (bc_node <$> load_builds (Load chain_flow)).
Proof.
  split; [exact wf_empty|]. split; [reflexivity|].
  destruct (Load_builds_every_node_once chain_flow)
    as (Hperm & Hnd & _); [exact wf_empty | reflexivity |].
  split; [exact Hperm|exact Hnd].
Defined.

Lemma notify_burst :
  run_ready chain_loaded ∧
  exec (Run_start chain_loaded) burst_script = Some burst ∧
  rs_refreshCh burst = 1 ∧
  covered burst ∧
  ∃ rs2, step burst (LNotifySend 1) = Some rs2 ∧ rs_refreshCh rs2 = 1.
Proof.
  split; [exact run_ready_chain_loaded|]. split; [reflexivity|].
  split; [reflexivity|].
  destruct (notify_never_blocks_token_covers
              chain_loaded burst_script burst)
    as (_ & Hcov & _ & Hsend & _);
    [exact run_ready_chain_loaded | reflexivity |].
  split; [exact Hcov|].
  destruct (Hsend 1) as (rs2 & Hstep & Htok & _).
  { apply (bool_decide_unpack _). reflexivity. }
  exists rs2. split; [exact Hstep|exact Htok].
Defined.

Lemma unresolved_traversal_lonely :
  Forall (λ e, ¬ e.1 `prefix_of` ["foo"; "bar"; "baz"]%string)
         (entries (nt (load_flow (Load lonely_flow)))) ∧
  wire_traversals (nt (load_flow (Load lonely_flow)))
    (store (load_flow (Load lonely_flow))) 0
    [["foo"; "bar"; "baz"]%string] (graph (load_flow (Load lonely_flow)), [])
  = (graph (load_flow (Load lonely_flow)), []).
Proof.
  assert (Forall (λ e, ¬ e.1 `prefix_of` ["foo"; "bar"; "baz"]%string)
                 (entries (nt (load_flow (Load lonely_flow))))) as Hno.
  { apply (bool_decide_unpack _). reflexivity. }
  split; [exact Hno|].
  exact (proj2 (unresolved_traversal_ignored (HBody:=list hcl.Block)
                  (nt (load_flow (Load lonely_flow)))
                  (store (load_flow (Load lonely_flow))) 0
                  ["foo"; "bar"; "baz"]%string [] []
                  (graph (load_flow (Load lonely_flow)), []) Hno)).
Defined.

(** ** Further properties at concrete inputs *)

Lemma Load_changes_chain :
  load_builds (Load chain_flow) ≠ [] ∧
  ∃ bb, os_ReadFile (configFile chain_flow) = inl bb.
Proof.
  assert (load_builds (Load chain_flow) ≠ []) as Hne.
  { vm_compute. discriminate. }
  split; [exact Hne|].
  destruct (Load_changes_only_after_checkpoints chain_flow (or_intror Hne))
    as (bb & _ & _ & _ & _ & _ & _ & Hr & _).
  exists bb. exact Hr.
Defined.

Lemma Load_store_shape_chain :
  shape <$> store (load_flow (Load chain_flow))
  = [(["source"; "s"]%string, source_s); (["filter"; "f"]%string, filter_f);
     (["sink"; "k"]%string, sink_k)].
Proof.
  destruct (Load_store_shape chain_flow "chain" [source_s; filter_f; sink_k] []
              (mkRootBlock "" "" [source_s; filter_f; sink_k]
                           [source_s; filter_f; sink_k]) []
              [source_s; filter_f; sink_k] [])
    as (Hshape & _); [reflexivity..|].
  exact Hshape.
Defined.

Lemma Load_badref_then_Run :
  load_builds (@Load nat nat (list hcl.Block) counter world_badref
                 (New [] "badref.river")) = [] ∧
  rs_started
    (Run_start (Value:=nat)
       (load_flow (@Load nat nat (list hcl.Block) counter world_badref
                     (New [] "badref.river")))) = [].
Proof.
  assert (load_builds (@Load nat nat (list hcl.Block) counter world_badref
                         (New [] "badref.river")) = []) as Hb.
  { vm_compute. reflexivity. }
  split; [exact Hb|].
  destruct (@Load_without_builds_then_Run nat nat (list hcl.Block) counter
              world_badref [] "badref.river" Hb) as (Hs & _).
  { vm_compute. discriminate. }
  exact Hs.
Defined.

Lemma Load_builder_once_chain :
  dag.wf (graph chain_flow) ∧
  NoDup (bc_node <$> load_builds (Load chain_flow)) ∧
  bc_node <$> load_builds (@Load nat nat (list hcl.Block) counter
                             world_failing chain_flow) = [0; 1] ∧
  load_ret (@Load nat nat (list hcl.Block) counter world_failing chain_flow)
  = RetErr (ErrExternal "bad arguments").
Proof.
  split; [exact wf_empty|].
  split; [exact (proj1 (Load_builder_at_most_once chain_flow wf_empty))|].
  split; [vm_compute; reflexivity|].
  destruct (@Load_builder_at_most_once nat nat (list hcl.Block) counter
              world_failing chain_flow wf_empty) as (_ & _ & Hfail).
  destruct (load_builds (@Load nat nat (list hcl.Block) counter
                           world_failing chain_flow) !! 1) as [c|] eqn:Hc;
    [|vm_compute in Hc; discriminate].
  refine (proj2 (Hfail 1 c (ErrExternal "bad arguments") Hc _)).
  vm_compute in Hc. injection Hc as <-. reflexivity.
Defined.

Lemma Name_filter_f :
  hcl.Labels filter_f = [] ++ ["f"%string] ∧
  Name (Comp:=nat) (newComponentNode filter_f) = "filter.f"%string.
Proof.
  split; [reflexivity|].
  destruct (Name_kind_and_label (Comp:=nat) filter_f [] "f" eq_refl)
    as (_ & Hname & _).
  exact Hname.
Defined.

Lemma Run_returns_chain :
  exec (Run_start chain_loaded) shutdown_script = Some chain_returned ∧
  rs_arbiter chain_returned = AReturned RetNil ∧
  ∀ n, n ∈ rs_started chain_returned → n ∈ rs_exited chain_returned.
Proof.
  assert (exec (Run_start chain_loaded) shutdown_script = Some chain_returned)
    as Hex by (vm_compute; reflexivity).
  split; [exact Hex|]. split; [reflexivity|].
  destruct (Run_returns_after_workers chain_loaded shutdown_script
              chain_returned Hex) as (_ & _ & _ & Hall).
  exact (Hall RetNil eq_refl).
Defined.

Lemma mutex_discipline_chain :
  exec (Run_start chain_loaded) cycle_script = Some chain_cycled ∧
  lock_trace false (rs_trace chain_cycled) = Some false.
Proof.
  assert (exec (Run_start chain_loaded) cycle_script = Some chain_cycled)
    as Hex by (vm_compute; reflexivity).
  split; [exact Hex|].
  exact (proj1 (mutex_discipline chain_loaded cycle_script chain_cycled Hex)).
Defined.

Lemma notifications_coalesce_chain :
  Forall (running (Run_start (Value:=nat) chain_loaded)) [0; 1; 0; 2] ∧
  ∃ rs', exec (Run_start chain_loaded) (notify_script [0; 1; 0; 2]) = Some rs' ∧
         rs_refreshCh rs' = 1.
Proof.
  assert (Forall (running (Run_start (Value:=nat) chain_loaded)) [0; 1; 0; 2])
    as Hall.
  { apply (bool_decide_unpack _). vm_compute. reflexivity. }
  split; [exact Hall|].
  destruct (notifications_coalesce (Run_start chain_loaded) [0; 1; 0; 2])
    as (rs' & Hex & Htok & _); [discriminate | exact Hall | vm_compute; lia |].
  exists rs'. split; [exact Hex|exact Htok].
Defined.

Lemma Run_keeps_chain :
  exec (Run_start chain_loaded) cycle_script = Some chain_cycled ∧
  graph (rs_flow chain_cycled) = graph chain_loaded ∧
  shape <$> store (rs_flow chain_cycled) = shape <$> store chain_loaded.
Proof.
  assert (exec (Run_start chain_loaded) cycle_script = Some chain_cycled)
    as Hex by (vm_compute; reflexivity).
  split; [exact Hex|].
  destruct (Run_keeps_graph_and_shapes (Run_start chain_loaded) cycle_script
              chain_cycled Hex) as (Hg & _ & _ & _ & Hs).
  split; [exact Hg|exact Hs].
Defined.

Lemma convert_nil_lenient :
  flowmode.convert (inl "scrape_configs: []"%string) lenient
  = flowmode.ConvRet None
      [flowmode.EffCreate "report.txt";
       flowmode.EffReport "report.txt" [error_diag];
       flowmode.EffCreate "out.river";
       flowmode.EffCopy (flowmode.ToFile "out.river") "scrape_configs: []"] ∧
  ∃ diags, flowmode.hasErrorLevel diags flowmode.SeverityLevelCritical = false.
Proof.
  assert (flowmode.convert (inl "scrape_configs: []"%string) lenient
          = flowmode.ConvRet None
              [flowmode.EffCreate "report.txt";
               flowmode.EffReport "report.txt" [error_diag];
               flowmode.EffCreate "out.river";
               flowmode.EffCopy (flowmode.ToFile "out.river")
                                "scrape_configs: []"]) as Hc.
  { vm_compute. reflexivity. }
  split; [exact Hc|].
  destruct (convert_nil _ _ _ Hc) as (_ & _ & _ & diags & _ & _ & _ & Hcrit & _).
  exists diags. exact Hcrit.
Defined.

Lemma report_written_first_strict_report :
  ∃ err effs,
    flowmode.convert (inl "scrape_configs: []"%string)
      (flowmode.mkFlowConvert "out.river" "report.txt" "prometheus" false "")
    = flowmode.ConvRet err effs ∧
    [flowmode.EffCreate "report.txt";
     flowmode.EffReport "report.txt" [error_diag]] `prefix_of` effs.
Proof.
  apply (report_written_first
           (flowmode.mkFlowConvert "out.river" "report.txt" "prometheus" false "")
           "scrape_configs: []" [] "scrape_configs: []" [error_diag]);
    [reflexivity | reflexivity | discriminate | reflexivity].
Defined.

Lemma Run_converts_prom_yaml :
  flowmode.Run lenient "prom.yaml"
  = flowmode.ConvRet None
      [flowmode.EffCreate "report.txt";
       flowmode.EffReport "report.txt" [error_diag];
       flowmode.EffCreate "out.river";
       flowmode.EffCopy (flowmode.ToFile "out.river") "scrape_configs: []"] ∧
  flowmode.sourceFormat lenient ≠ ""%string.
Proof.
  assert (flowmode.Run lenient "prom.yaml"
          = flowmode.ConvRet None
              [flowmode.EffCreate "report.txt";
               flowmode.EffReport "report.txt" [error_diag];
               flowmode.EffCreate "out.river";
               flowmode.EffCopy (flowmode.ToFile "out.river")
                                "scrape_configs: []"]) as Hr.
  { vm_compute. reflexivity. }
  split; [exact Hr|].
  exact (proj1 (Run_converts_only_readable_input _ _ _ _ Hr (or_introl eq_refl))).
Defined.

Lemma parseExtraArgs_panics_short :
  (∃ a, a ∈ gostrings.Fields "--x a" ∧ String.length a < 2) ∧
  flowmode.parseExtraArgs "--x a" = flowmode.ParsePanic.
Proof.
  assert (∃ a, a ∈ gostrings.Fields "--x a" ∧ String.length a < 2) as Hs.
  { exists "a"%string. split; [|simpl; lia].
    apply (bool_decide_unpack _). vm_compute. reflexivity. }
  split; [exact Hs|].
  exact (parseExtraArgs_panic_conditions "--x a" (or_introl Hs)).
Defined.

